(** * uikit root orchestration: a shallow embedding of
      [packages/uikit/src/components/root.ts] and of [Image.setProperties]

    Models first, facts after.  The models:
    - [Deferred]: [createDeferredRequestLayoutCalculation], the request
      function it returns and the frame hook it registers;
    - [Js], [Size]: property values, [createSizeTranslator] and the root's
      [pixelSize];
    - [Merged]: the merged properties [createRoot] builds;
    - [Num], [Three], [RootMatrix]: [computeRootMatrix] and the matrix
      operations it calls;
    - [Lifecycle]: [onFrameSet], [subscriptions] and [destroyRoot];
    - [RootFrames]: the root with its deferred-layout closure, torn down
      and ticked;
    - [Camera]: [onCameraDistanceFrame];
    - [Signals]: [Image.setProperties] and the two cells it writes. *)

From Stdlib Require Import Floats ZArith.
From stdpp Require Import base tactics option list gmap strings.

Set Warnings "-inexact-float".

(** ** Deferred layout calculation

    [createDeferredRequestLayoutCalculation] closes over one mutable
    variable, [requestedNode].  A [FlexNode] is a mutable object that the
    closure stores by reference, so nodes are references here and the private
    field [yogaNode] of every node lives in one shared table: a node that has
    no entry holds a null engine handle. *)
Module Deferred.

Definition NodeRef := nat.
Definition YogaHandle := nat.

(** One invocation of [FlexNode.calculateLayout], as observed from the caller:
    the receiver and the engine handle the receiver held at that moment. *)
Record LayoutCall := MkLayoutCall {
  receiver : NodeRef;
  handleAtCall : option YogaHandle
}.

Record World := MkWorld {
  yogaNode : gmap NodeRef YogaHandle;
  requestedNode : option NodeRef;
  layoutCalls : list LayoutCall
}.

(** [const onFrame = () => { if (requestedNode == null) return;
      const node = requestedNode; requestedNode = undefined;
      node.calculateLayout() }] *)
Definition onFrame (w : World) : World :=
  match requestedNode w with
  | None => w
  | Some node =>
      {| yogaNode := yogaNode w;
         requestedNode := None;
         layoutCalls := layoutCalls w ++ [MkLayoutCall node (yogaNode w !! node)] |}
  end.

(** [(node) => { if (requestedNode != null || node['yogaNode'] == null) return;
      requestedNode = node }] *)
Definition requestCalculateLayout (node : NodeRef) (w : World) : World :=
  match requestedNode w, yogaNode w !! node with
  | None, Some _ =>
      {| yogaNode := yogaNode w;
         requestedNode := Some node;
         layoutCalls := layoutCalls w |}
  | _, _ => w
  end.

(** Modelled from the spec: [FlexNode.destroy] is not part of the sources at
    hand; the spec says that destruction "releases the underlying engine
    handle", and that liveness is "engine handle presence". *)
Definition destroy (node : NodeRef) (w : World) : World :=
  {| yogaNode := delete node (yogaNode w);
     requestedNode := requestedNode w;
     layoutCalls := layoutCalls w |}.

(** Modelled from the spec: a node gets its engine handle some time after it
    was made ("a node whose underlying engine handle was never created (not
    yet attached)"); [FlexNode], which sets its [yogaNode], is not part of the
    sources at hand. *)
Definition attach (node : NodeRef) (handle : YogaHandle) (w : World) : World :=
  {| yogaNode := <[node := handle]> (yogaNode w);
     requestedNode := requestedNode w;
     layoutCalls := layoutCalls w |}.

(** What can happen to the closure between and at frame ticks. *)
Inductive Event :=
| Request (node : NodeRef)
| Destroy (node : NodeRef)
| Frame
| Attach (node : NodeRef) (handle : YogaHandle).

Definition step (w : World) (e : Event) : World :=
  match e with
  | Request node => requestCalculateLayout node w
  | Destroy node => destroy node w
  | Frame => onFrame w
  | Attach node handle => attach node handle w
  end.

Definition run (es : list Event) (w : World) : World := foldl step w es.

(** An idle closure (nothing pending, no call made yet) over a table of engine
    handles.  Right after [createDeferredRequestLayoutCalculation] returned
    the table is empty: [createRoot] makes the root's [FlexNode] afterwards. *)
Definition created (nodes : gmap NodeRef YogaHandle) : World :=
  {| yogaNode := nodes; requestedNode := None; layoutCalls := [] |}.

End Deferred.

(** ** JavaScript values that reach the size and anchor properties

    [sizeX], [sizeY] and [pixelSize] are typed [number | undefined]; a
    property may also hold a signal ("value-or-reactive-cell").  Numbers are
    IEEE-754 doubles, as in JavaScript. *)
Module Js.

Inductive JsValue :=
| JsUndefined
| JsNull
| JsNumber (x : float).

Definition SignalId := nat.

(** The current value of every signal; a signal that was never written holds
    [undefined]. *)
Definition SignalStore := gmap SignalId JsValue.

(** What a property source can hold under a key. *)
Inductive Reactive :=
| Plain (v : JsValue)
| Cell (s : SignalId).

(** Modelled from the spec: [readReactive] of [utils] is not part of the
    sources at hand; a property is a "value-or-reactive-cell", and reading it
    yields the value itself or the cell's current value. *)
Definition readReactive (σ : SignalStore) (value : Reactive) : JsValue :=
  match value with
  | Plain v => v
  | Cell s => default JsUndefined (σ !! s)
  end.

(** What [MergedProperties.add] receives: a value taken from a source, or a
    signal made by [computed(() => ...)], given by its defining function. *)
Inductive PropValue :=
| Given (r : Reactive)
| Derived (f : SignalStore → JsValue).

Definition resolve (σ : SignalStore) (v : PropValue) : JsValue :=
  match v with
  | Given r => readReactive σ r
  | Derived f => f σ
  end.

(** The key comparison of a JavaScript [Map] (SameValueZero): numbers are
    compared with [==] except that NaN is the same as NaN; [+0] and [-0] are
    the same key. *)
Definition sameValueZero (x y : float) : bool :=
  (x =? y)%float || (is_nan x && is_nan y).

(** [x === 0]: true of [+0] and of [-0]. *)
Definition isZero (x : float) : bool := (x =? 0)%float.

Definition sameKey (a b : Reactive) : bool :=
  match a, b with
  | Plain JsUndefined, Plain JsUndefined => true
  | Plain JsNull, Plain JsNull => true
  | Plain (JsNumber x), Plain (JsNumber y) => sameValueZero x y
  | Cell s, Cell t => bool_decide (s = t)
  | _, _ => false
  end.

(** The receiver of a transformer's writes: [target.add(key, value)]. *)
Class PropertyTarget (T : Type) := target_add : string → PropValue → T → T.

End Js.

(** ** [createSizeTranslator] and the root's [pixelSize] *)
Module Size.
Import Js.

(** [const DEFAULT_PIXEL_SIZE = 0.002] *)
Definition DEFAULT_PIXEL_SIZE : float := 0.002%float.

(** [const pixelSize = properties.pixelSize ?? DEFAULT_PIXEL_SIZE] *)
Definition rootPixelSize (pixelSizeProperty : option float) : float :=
  default DEFAULT_PIXEL_SIZE pixelSizeProperty.

(** [computed(() => { const s = readReactive(value);
      if (s == null) return undefined; return s / pixelSize })] *)
Definition sizeComputed (pixelSize : float) (value : Reactive)
    (σ : SignalStore) : JsValue :=
  match readReactive σ value with
  | JsNumber s => JsNumber (s / pixelSize)%float
  | JsNull | JsUndefined => JsUndefined
  end.

(** [const map = new Map<unknown, Signal<number | undefined>>()]: the entries
    in insertion order. *)
Definition SizeMap := list (Reactive * (SignalStore → JsValue)).

(** [map.get(value)] *)
Fixpoint mapGet (map : SizeMap) (value : Reactive) : option (SignalStore → JsValue) :=
  match map with
  | [] => None
  | (k, entry) :: rest => if sameKey k value then Some entry else mapGet rest value
  end.

(** The function stored under [key]:
    [(value, target) => { let entry = map.get(value);
       if (entry == null) { map.set(value, (entry = computed(...))) }
       target.add(to, entry) }].
    The closure's [map] is threaded through. *)
Definition sizeTransformer {T} `{PropertyTarget T} (pixelSize : float)
    (to : string) (map : SizeMap) (value : Reactive) (target : T) : SizeMap * T :=
  match mapGet map value with
  | Some entry => (map, target_add to (Derived entry) target)
  | None =>
      let entry := sizeComputed pixelSize value in
      (map ++ [(value, entry)], target_add to (Derived entry) target)
  end.

(** [createSizeTranslator(pixelSize, key, to)]: a fresh, empty [map] and the
    one-entry object [{ [key]: transformer }]. *)
Definition createSizeTranslator {T} `{PropertyTarget T} (pixelSize : float)
    (key to : string)
    : SizeMap * gmap string (SizeMap → Reactive → T → SizeMap * T) :=
  ([], {[ key := sizeTransformer pixelSize to ]}).

(** The first two spreads of [const transformers = {
      ...createSizeTranslator(pixelSize, 'sizeX', 'width'),
      ...createSizeTranslator(pixelSize, 'sizeY', 'height'), ... }];
    a later spread wins over an earlier one. *)
Definition rootSizeTranslators {T} `{PropertyTarget T} (pixelSize : float)
    : gmap string (SizeMap → Reactive → T → SizeMap * T) :=
  (createSizeTranslator pixelSize "sizeY" "height").2 ∪
  (createSizeTranslator pixelSize "sizeX" "width").2.

(** A target that only records what is added to it. *)
Definition Recorder := list (string * PropValue).

#[export] Instance recorder_target : PropertyTarget Recorder :=
  λ key value log, log ++ [(key, value)].

(** Every entry of the map is the signal that was computed for its key. *)
Definition mapOk (pixelSize : float) (map : SizeMap) : Prop :=
  Forall (λ ke, ke.2 = sizeComputed pixelSize ke.1) map.

End Size.

(** ** Merged properties *)
Module Merged.
Import Js.

(** A property source: a JavaScript object, its keys in insertion order. *)
Abbreviation Source := (list (string * Reactive)).

(** Modelled from the spec: the class [MergedProperties] of
    [properties/merged] is not part of the sources at hand.  The spec: sources
    are ingested by [addAll] in precedence order, "applying registered
    transformers as each property key is written"; "the merged result for a
    key is the first non-undefined value found when scanning sources in
    precedence order", resolved live.  What was written under a key is kept
    with the latest write first. *)
Record MergedProperties := MkMerged {
  written : gmap string (list PropValue)
}.

Definition newMerged : MergedProperties := MkMerged ∅.

Definition stack (mp : MergedProperties) (key : string) : list PropValue :=
  default [] (written mp !! key).

(** Modelled from the spec: a write of one value under one key. *)
Definition write (key : string) (v : PropValue) (mp : MergedProperties)
    : MergedProperties :=
  MkMerged (<[key := v :: stack mp key]> (written mp)).

#[export] Instance merged_target : PropertyTarget MergedProperties := write.

(** [PropertyTransformers]: functions [(value, target) => void] by key. *)
Definition PropertyTransformers :=
  gmap string (Reactive → MergedProperties → MergedProperties).

(** Modelled from the spec: [add] hands the value to the transformer
    registered for the key, and writes it under the key when there is none. *)
Definition add (transformers : PropertyTransformers) (key : string)
    (value : Reactive) (mp : MergedProperties) : MergedProperties :=
  match transformers !! key with
  | Some transform => transform value mp
  | None => write key (Given value) mp
  end.

Definition addSource (transformers : PropertyTransformers) (src : Source)
    (mp : MergedProperties) : MergedProperties :=
  foldl (λ mp kv, add transformers kv.1 kv.2 mp) mp src.

(** Modelled from the spec: [addAll(...sources)]; a source may be
    [undefined] and is then skipped. *)
Definition addAll (transformers : PropertyTransformers)
    (sources : list (option Source)) (mp : MergedProperties) : MergedProperties :=
  foldl (λ mp src, from_option (λ s, addSource transformers s mp) mp src) mp sources.

(** The first value of the list that does not resolve to [undefined]. *)
Fixpoint firstDefined (σ : SignalStore) (vs : list PropValue) : JsValue :=
  match vs with
  | [] => JsUndefined
  | v :: rest =>
      match resolve σ v with
      | JsUndefined => firstDefined σ rest
      | x => x
      end
  end.

(** Modelled from the spec: reading a key. *)
Definition read (σ : SignalStore) (mp : MergedProperties) (key : string) : JsValue :=
  firstDefined σ (stack mp key).

(** [computed(() => { const merged = new MergedProperties(transformers);
      merged.addAll(defaultProperties, properties); return merged })] of
    [createRoot]. *)
Definition mergedProperties (transformers : PropertyTransformers)
    (defaultProperties : option Source) (properties : Source) : MergedProperties :=
  addAll transformers [defaultProperties; Some properties] newMerged.

(** The spec's side of the comparison: what one source says about a key (the
    last binding counts, as in an object literal), and "the source defines
    the key". *)
Definition bindings (key : string) (src : Source) : list Reactive :=
  (filter (λ kv, kv.1 = key) src).*2.

Definition sourceValue (σ : SignalStore) (src : option Source) (key : string) : JsValue :=
  firstDefined σ (Given <$> reverse (bindings key (default [] src))).

Definition defines (σ : SignalStore) (key : string) (src : option Source) : Prop :=
  sourceValue σ src key ≠ JsUndefined.

(** The spec's reading of precedence: scan the sources, a later one that
    defines the key replaces what an earlier one said. *)
Definition winner (σ : SignalStore) (key : string)
    (sources : list (option Source)) (start : JsValue) : JsValue :=
  foldl (λ acc src, match sourceValue σ src key with
                    | JsUndefined => acc
                    | x => x
                    end) start sources.

End Merged.

(** ** Numbers of the matrix pipeline

    The code computes with JavaScript numbers.  The matrix functions are
    written once over the operations they use; [float_number] is the
    instance the program runs with. *)
Module Num.

Class Number (num : Type) := MkNumber {
  num0 : num;
  num1 : num;
  nadd : num → num → num;
  nmul : num → num → num;
  nsub : num → num → num;
  nopp : num → num
}.

#[export] Instance float_number : Number float :=
  {| num0 := 0%float; num1 := 1%float; nadd := PrimFloat.add;
     nmul := PrimFloat.mul; nsub := PrimFloat.sub; nopp := PrimFloat.opp |}.

Declare Scope jsnum_scope.
Delimit Scope jsnum_scope with jsnum.
Infix "+" := nadd : jsnum_scope.
Infix "*" := nmul : jsnum_scope.
Infix "-" := nsub : jsnum_scope.

End Num.

(** ** The parts of three.js the root uses *)
Module Three.
Import Num.
Local Open Scope jsnum_scope.

Section Three.
Context {num : Type} `{Number num}.

(** A [Matrix4], written as [Matrix4.set] takes it (row by row). *)
Record Matrix4 := MkMatrix4 {
  n11 : num; n12 : num; n13 : num; n14 : num;
  n21 : num; n22 : num; n23 : num; n24 : num;
  n31 : num; n32 : num; n33 : num; n34 : num;
  n41 : num; n42 : num; n43 : num; n44 : num
}.

(** [Matrix4.makeTranslation(x, y, z)] *)
Definition makeTranslation (x y z : num) : Matrix4 :=
  MkMatrix4 num1 num0 num0 x
            num0 num1 num0 y
            num0 num0 num1 z
            num0 num0 num0 num1.

(** [Matrix4.multiplyMatrices(a, b)] *)
Definition multiplyMatrices (a b : Matrix4) : Matrix4 :=
  MkMatrix4
    (n11 a * n11 b + n12 a * n21 b + n13 a * n31 b + n14 a * n41 b)
    (n11 a * n12 b + n12 a * n22 b + n13 a * n32 b + n14 a * n42 b)
    (n11 a * n13 b + n12 a * n23 b + n13 a * n33 b + n14 a * n43 b)
    (n11 a * n14 b + n12 a * n24 b + n13 a * n34 b + n14 a * n44 b)
    (n21 a * n11 b + n22 a * n21 b + n23 a * n31 b + n24 a * n41 b)
    (n21 a * n12 b + n22 a * n22 b + n23 a * n32 b + n24 a * n42 b)
    (n21 a * n13 b + n22 a * n23 b + n23 a * n33 b + n24 a * n43 b)
    (n21 a * n14 b + n22 a * n24 b + n23 a * n34 b + n24 a * n44 b)
    (n31 a * n11 b + n32 a * n21 b + n33 a * n31 b + n34 a * n41 b)
    (n31 a * n12 b + n32 a * n22 b + n33 a * n32 b + n34 a * n42 b)
    (n31 a * n13 b + n32 a * n23 b + n33 a * n33 b + n34 a * n43 b)
    (n31 a * n14 b + n32 a * n24 b + n33 a * n34 b + n34 a * n44 b)
    (n41 a * n11 b + n42 a * n21 b + n43 a * n31 b + n44 a * n41 b)
    (n41 a * n12 b + n42 a * n22 b + n43 a * n32 b + n44 a * n42 b)
    (n41 a * n13 b + n42 a * n23 b + n43 a * n33 b + n44 a * n43 b)
    (n41 a * n14 b + n42 a * n24 b + n43 a * n34 b + n44 a * n44 b).

(** [this.premultiply(m)] is [this.multiplyMatrices(m, this)]. *)
Definition premultiply (this m : Matrix4) : Matrix4 := multiplyMatrices m this.

(** [Matrix4.clone()] *)
Definition clone (m : Matrix4) : Matrix4 := m.

Record Vector3 := MkVector3 { vx : num; vy : num; vz : num }.

(** [Vector3.setFromMatrixPosition(m)]: elements 12, 13 and 14. *)
Definition setFromMatrixPosition (m : Matrix4) : Vector3 :=
  MkVector3 (n14 m) (n24 m) (n34 m).

(** [Vector3.dot(v)] *)
Definition dot (a b : Vector3) : num := vx a * vx b + vy a * vy b + vz a * vz b.

Record Plane := MkPlane { normal : Vector3; constant : num }.

(** [Plane.distanceToPoint(point)]: [normal.dot(point) + constant]. *)
Definition distanceToPoint (pl : Plane) (point : Vector3) : num :=
  dot (normal pl) point + constant pl.

End Three.

Arguments Matrix4 num : clear implicits.
Arguments Vector3 num : clear implicits.
Arguments Plane num : clear implicits.

End Three.

(** ** [computeRootMatrix] *)
Module RootMatrix.
Import Num Three.
Local Open Scope jsnum_scope.

(** Modelled from the spec: the keys of [alignmentXMap] and [alignmentYMap]
    ([utils], not part of the sources at hand): "anchor alignment ([anchorX],
    [anchorY] in left/center/right/top/bottom, mapped to numeric offsets)". *)
Inductive AnchorX := left | centerX | right.
Inductive AnchorY := top | centerY | bottom.

(** What [get('anchorX')] and [get('anchorY')] read from the merged
    properties; [None] stands for [undefined] and [null]. *)
Record AnchorProperties := MkAnchors {
  anchorX : option AnchorX;
  anchorY : option AnchorY
}.

Section RootMatrix.
Context {num : Type} `{Number num}.

(** The two tables of [utils], taken as they come. *)
Variable alignmentXMap : AnchorX → num.
Variable alignmentYMap : AnchorY → num.

(** [computed(() => { const [width, height] = size.value;
      return matrix.value?.clone().premultiply(matrixHelper.makeTranslation(
        alignmentXMap[get('anchorX') ?? 'center'] * width * pixelSize,
        alignmentYMap[get('anchorY') ?? 'center'] * height * pixelSize, 0)) })] *)
Definition computeRootMatrix (get : AnchorProperties)
    (matrix : option (Matrix4 num)) (size : num * num) (pixelSize : num)
    : option (Matrix4 num) :=
  let '(width, height) := size in
  m ← matrix;
  Some (premultiply (clone m)
          (makeTranslation
             (alignmentXMap (default centerX (anchorX get)) * width * pixelSize)
             (alignmentYMap (default centerY (anchorY get)) * height * pixelSize)
             num0)).

End RootMatrix.

(** Two numbers are [d] apart, in one direction or the other. *)
Definition apart {num} `{Number num} (a b d : num) : Prop :=
  a - b = d ∨ b - a = d.

(** The X and Y translation of a root matrix (elements 12 and 13). *)
Definition translationX {num} (m : Matrix4 num) : num := n14 m.
Definition translationY {num} (m : Matrix4 num) : num := n24 m.

End RootMatrix.

(** ** The root's frame hooks and its subscription list *)
Module Lifecycle.

(** The five functions [createRoot] adds to [onFrameSet]. *)
Inductive FrameHook :=
| DeferredLayoutOnFrame
| PanelGroupOnFrame
| CameraDistanceOnFrame
| ScrollOnFrame
| GlyphGroupOnFrame.

#[export] Instance FrameHook_eq_dec : EqDecision FrameHook.
Proof. solve_decision. Defined.

(** The functions [createRoot] hands [subscriptions] to; what they push is
    theirs. *)
Inductive Collaborator :=
| SetupCursorCleanup
| NewFlexNode
| ApplyTransform
| CreateInstancedPanel
| CreateScrollbars
| SetupLayoutListeners
| SetupScrollHandler
| CreateInteractionPanel.

#[export] Instance Collaborator_eq_dec : EqDecision Collaborator.
Proof. solve_decision. Defined.

(** An entry of [subscriptions]. *)
Inductive Teardown :=
| DeleteFrameHook (hook : FrameHook)               (* [() => onFrameSet.delete(hook)] *)
| DestroyNode                                      (* [() => node.destroy()] *)
| Pushed (owner : Collaborator) (index : nat).     (* pushed by a collaborator *)

#[export] Instance Teardown_eq_dec : EqDecision Teardown.
Proof. solve_decision. Defined.

Record Root := MkRoot {
  onFrameSet : list FrameHook;      (* a [Set]: no duplicates, insertion order *)
  subscriptions : list Teardown;
  released : list Teardown;         (* every callback that has run, in order *)
  nodeDestroys : nat                (* how often [node.destroy()] has run *)
}.

(** [onFrameSet.add(hook)] *)
Definition addHook (hook : FrameHook) (r : Root) : Root :=
  MkRoot (if decide (hook ∈ onFrameSet r) then onFrameSet r else onFrameSet r ++ [hook])
         (subscriptions r) (released r) (nodeDestroys r).

(** [subscriptions.push(callback)] *)
Definition push (callback : Teardown) (r : Root) : Root :=
  MkRoot (onFrameSet r) (subscriptions r ++ [callback]) (released r) (nodeDestroys r).

(** A collaborator pushing its own callbacks, [count] of them. *)
Definition collaborate (owner : Collaborator) (count : nat) (r : Root) : Root :=
  MkRoot (onFrameSet r) (subscriptions r ++ (Pushed owner <$> seq 0 count))
         (released r) (nodeDestroys r).

(** [onFrameSet.add(hook); subscriptions.push(() => onFrameSet.delete(hook))] *)
Definition register (hook : FrameHook) (r : Root) : Root :=
  push (DeleteFrameHook hook) (addHook hook r).

(** [createRoot], as far as [onFrameSet] and [subscriptions] go, statement by
    statement; [pushes] says how many callbacks each collaborator pushes. *)
Definition createRoot (pushes : Collaborator → nat) : Root :=
  let r := MkRoot [] [] [] 0 in
  let r := collaborate SetupCursorCleanup (pushes SetupCursorCleanup) r in
  let r := register DeferredLayoutOnFrame r in
  let r := collaborate NewFlexNode (pushes NewFlexNode) r in
  let r := push DestroyNode r in
  let r := collaborate ApplyTransform (pushes ApplyTransform) r in
  let r := register PanelGroupOnFrame r in
  let r := register CameraDistanceOnFrame r in
  let r := collaborate CreateInstancedPanel (pushes CreateInstancedPanel) r in
  let r := collaborate CreateScrollbars (pushes CreateScrollbars) r in
  let r := collaborate SetupLayoutListeners (pushes SetupLayoutListeners) r in
  let r := collaborate SetupScrollHandler (pushes SetupScrollHandler) r in
  let r := register ScrollOnFrame r in
  let r := register GlyphGroupOnFrame r in
  collaborate CreateInteractionPanel (pushes CreateInteractionPanel) r.

(** Calling one entry of the list. *)
Definition call (r : Root) (callback : Teardown) : Root :=
  match callback with
  | DeleteFrameHook hook =>
      MkRoot (filter (λ h, h ≠ hook) (onFrameSet r)) (subscriptions r)
             (released r ++ [callback]) (nodeDestroys r)
  | DestroyNode =>
      MkRoot (onFrameSet r) (subscriptions r) (released r ++ [callback])
             (S (nodeDestroys r))
  | Pushed _ _ =>
      MkRoot (onFrameSet r) (subscriptions r) (released r ++ [callback])
             (nodeDestroys r)
  end.

(** Modelled from the spec: [unsubscribeSubscriptions] of [utils] is not part
    of the sources at hand; the subscription list is "drained exactly once on
    destroy": every callback is called, and the list is left empty. *)
Definition unsubscribeSubscriptions (r : Root) : Root :=
  let r' := foldl call r (subscriptions r) in
  MkRoot (onFrameSet r') [] (released r') (nodeDestroys r').

(** [destroyRoot(internals)] *)
Definition destroyRoot (internals : Root) : Root :=
  unsubscribeSubscriptions internals.

End Lifecycle.

(** ** The root's frame tick

    The root together with the closure that [createRoot] makes at its line
    101 and the root's own [FlexNode]. *)
Module RootFrames.
Import Deferred Lifecycle.

Record Live := MkLive {
  internals : Root;
  closure : World;
  node : NodeRef
}.

(** The root's node asks for a layout pass. *)
Definition request (l : Live) : Live :=
  MkLive (internals l) (requestCalculateLayout (node l) (closure l)) (node l).

(** Calling one entry of [subscriptions]: [() => node.destroy()] is the one
    that reaches the root's node. *)
Definition callLive (l : Live) (callback : Teardown) : Live :=
  MkLive (call (internals l) callback)
         (match callback with
          | DestroyNode => destroy (node l) (closure l)
          | DeleteFrameHook _ | Pushed _ _ => closure l
          end)
         (node l).

(** [destroyRoot(internals)], with [unsubscribeSubscriptions] as in
    [Lifecycle]: every callback is called in order, and the list is left
    empty. *)
Definition destroyRootLive (l : Live) : Live :=
  let l' := foldl callLive l (subscriptions (internals l)) in
  MkLive (MkRoot (onFrameSet (internals l')) [] (released (internals l'))
                 (nodeDestroys (internals l')))
         (closure l') (node l').

(** What a frame hook does to the closure: the deferred-layout hook is the
    closure's [onFrame]; the other four belong to the panel and glyph group
    managers, the camera distance and the scroll handler, which have
    [requestedNode] out of reach: the most they can do to the closure is to
    ask for layout passes through the request function, [asks] says for
    which nodes. *)
Definition runHook (asks : FrameHook → list NodeRef) (w : World) (hook : FrameHook)
    : World :=
  match hook with
  | DeferredLayoutOnFrame => onFrame w
  | PanelGroupOnFrame | CameraDistanceOnFrame | ScrollOnFrame | GlyphGroupOnFrame =>
      run (Request <$> asks hook) w
  end.

(** Modelled from the spec: the loop that calls the functions of
    [onFrameSet] is not part of the sources at hand; the tick is "an external
    per-frame tick (one call per rendered frame)", and "within one frame
    tick, all registered frame-hooks run in registration order". *)
Definition frameTick (asks : FrameHook → list NodeRef) (l : Live) : Live :=
  MkLive (internals l) (foldl (runHook asks) (closure l) (onFrameSet (internals l)))
         (node l).

End RootFrames.

(** ** The camera-distance frame hook *)
Module Camera.
Import Num Three.

Section Camera.
Context {num : Type} `{Number num}.

(** [Plane.applyMatrix4] of three.js, taken as it comes. *)
Variable applyMatrix4 : Plane num → Matrix4 num → Plane num.

Record Object3D := MkObject3D { matrixWorld : Matrix4 num }.

(** What the hook reads and writes: the module-level helpers, the shared
    context, and how often [getCamera()] has been called. *)
Record FrameState := MkFrameState {
  planeHelper : Plane num;
  vectorHelper : Vector3 num;
  cameraDistance : num;
  getCameraCalls : nat
}.

(** [const onCameraDistanceFrame = () => {
      if (object.current == null) { ctx.cameraDistance = 0; return }
      planeHelper.normal.set(0, 0, 1); planeHelper.constant = 0;
      planeHelper.applyMatrix4(object.current.matrixWorld);
      vectorHelper.setFromMatrixPosition(getCamera().matrixWorld);
      ctx.cameraDistance = planeHelper.distanceToPoint(vectorHelper) }] *)
Definition onCameraDistanceFrame (current : option Object3D) (camera : Object3D)
    (st : FrameState) : FrameState :=
  match current with
  | None =>
      MkFrameState (planeHelper st) (vectorHelper st) num0 (getCameraCalls st)
  | Some object =>
      let plane := MkPlane (MkVector3 num0 num0 num1) (constant (planeHelper st)) in
      let plane := MkPlane (normal plane) num0 in
      let plane := applyMatrix4 plane (matrixWorld object) in
      let vector := setFromMatrixPosition (matrixWorld camera) in
      MkFrameState plane vector (distanceToPoint plane vector) (S (getCameraCalls st))
  end.

End Camera.

Arguments Object3D num : clear implicits.
Arguments FrameState num : clear implicits.

End Camera.

(** ** [Image.setProperties] and the signals it writes

    The two cells belong to [@preact/signals-core].  Of that library the model
    keeps what a write and [batch] do: a write that changes the value notifies
    the cell's targets, a notified effect is queued once, and the queue is run
    when the outermost batch ends.  An effect here reads both cells and
    records what it saw. *)
Module Signals.

Definition EffectId := nat.

Section Signals.
Context {Props Defaults : Type} `{EqDecision Props} `{EqDecision Defaults}.

Record Observation := MkObservation {
  observer : EffectId;
  sawProperties : Props;
  sawDefaultProperties : option Defaults
}.

Record Runtime := MkRuntime {
  propertiesSignal : Props;
  defaultPropertiesSignal : option Defaults;
  propertiesTargets : list EffectId;
  defaultPropertiesTargets : list EffectId;
  batchDepth : nat;
  batchedEffect : list EffectId;
  observations : list Observation
}.

(** [startBatch()] *)
Definition startBatch (rt : Runtime) : Runtime :=
  MkRuntime (propertiesSignal rt) (defaultPropertiesSignal rt)
    (propertiesTargets rt) (defaultPropertiesTargets rt)
    (S (batchDepth rt)) (batchedEffect rt) (observations rt).

(** The queue of notified effects: an effect that is queued already (its
    NOTIFIED flag is set) is not queued again. *)
Definition enqueue (queue : list EffectId) (e : EffectId) : list EffectId :=
  if decide (e ∈ queue) then queue else e :: queue.

(** [effect._notify()] *)
Definition notify (rt : Runtime) (e : EffectId) : Runtime :=
  MkRuntime (propertiesSignal rt) (defaultPropertiesSignal rt)
    (propertiesTargets rt) (defaultPropertiesTargets rt)
    (batchDepth rt) (enqueue (batchedEffect rt) e) (observations rt).

(** What an effect records when it runs now. *)
Definition observe (rt : Runtime) (e : EffectId) : Observation :=
  MkObservation e (propertiesSignal rt) (defaultPropertiesSignal rt).

(** Running one queued effect: it reads both cells. *)
Definition runEffect (rt : Runtime) (e : EffectId) : Runtime :=
  MkRuntime (propertiesSignal rt) (defaultPropertiesSignal rt)
    (propertiesTargets rt) (defaultPropertiesTargets rt)
    (batchDepth rt) (batchedEffect rt) (observations rt ++ [observe rt e]).

(** [endBatch()]: an inner batch only counts down; the outermost one runs
    the queue and empties it. *)
Definition endBatch (rt : Runtime) : Runtime :=
  match batchDepth rt with
  | S (S depth) =>
      MkRuntime (propertiesSignal rt) (defaultPropertiesSignal rt)
        (propertiesTargets rt) (defaultPropertiesTargets rt)
        (S depth) (batchedEffect rt) (observations rt)
  | _ =>
      let rt' := foldl runEffect rt (batchedEffect rt) in
      MkRuntime (propertiesSignal rt') (defaultPropertiesSignal rt')
        (propertiesTargets rt') (defaultPropertiesTargets rt')
        0 [] (observations rt')
  end.

(** [propertiesSignal.value = value] *)
Definition setPropertiesSignal (value : Props) (rt : Runtime) : Runtime :=
  if decide (value = propertiesSignal rt) then rt
  else
    let rt := MkRuntime value (defaultPropertiesSignal rt)
                (propertiesTargets rt) (defaultPropertiesTargets rt)
                (batchDepth rt) (batchedEffect rt) (observations rt) in
    endBatch (foldl notify (startBatch rt) (propertiesTargets rt)).

(** [defaultPropertiesSignal.value = value] *)
Definition setDefaultPropertiesSignal (value : option Defaults) (rt : Runtime) : Runtime :=
  if decide (value = defaultPropertiesSignal rt) then rt
  else
    let rt := MkRuntime (propertiesSignal rt) value
                (propertiesTargets rt) (defaultPropertiesTargets rt)
                (batchDepth rt) (batchedEffect rt) (observations rt) in
    endBatch (foldl notify (startBatch rt) (defaultPropertiesTargets rt)).

(** [batch(fn)]: [if (batchDepth > 0) return fn(); startBatch();
      try { return fn() } finally { endBatch() }] *)
Definition batch (fn : Runtime → Runtime) (rt : Runtime) : Runtime :=
  match batchDepth rt with
  | 0 => endBatch (fn (startBatch rt))
  | S _ => fn rt
  end.

(** [setProperties(properties, defaultProperties) { batch(() => {
      this.internals.propertiesSignal.value = properties;
      this.internals.defaultPropertiesSignal.value = defaultProperties }) }] *)
Definition setProperties (properties : Props) (defaultProperties : option Defaults)
    (rt : Runtime) : Runtime :=
  batch (λ rt, setDefaultPropertiesSignal defaultProperties
                 (setPropertiesSignal properties rt)) rt.

(** The same two writes without [batch], for comparison. *)
Definition setPropertiesUnbatched (properties : Props)
    (defaultProperties : option Defaults) (rt : Runtime) : Runtime :=
  setDefaultPropertiesSignal defaultProperties (setPropertiesSignal properties rt).

End Signals.

Arguments Observation : clear implicits.
Arguments Runtime : clear implicits.

End Signals.

(** ** Traces of the deferred layout closure *)
Module DeferredTrace.
Import Deferred.

#[export] Instance Event_eq_dec : EqDecision Event.
Proof. solve_decision. Defined.

(** How many frame ticks, and how many requests, a trace holds. *)
Definition frames (es : list Event) : nat := length (filter (λ e, e = Frame) es).

Definition isRequest (e : Event) : bool :=
  match e with Request _ => true | _ => false end.

Definition requests (es : list Event) : nat := length (filter (λ e, isRequest e = true) es).

(** 1 when a node is pending, 0 otherwise. *)
Definition pendingCount (w : World) : nat :=
  match requestedNode w with Some _ => 1 | None => 0 end.

(** One frame interval: requests for [first] and then for [rest], closed by
    the tick. *)
Definition round (r : NodeRef * list NodeRef) : list Event :=
  (Request <$> (r.1 :: r.2)) ++ [Frame].

End DeferredTrace.

(** ** The [Image] wrapper in the scene graph

    [Image] extends [Object3D]; its constructor and [destroy] call
    [Object3D.add] and [Object3D.remove] of three.js.  Objects are references;
    [parent] and [children] of every object live in two tables. *)
Module ImageWrapper.

Definition Obj := nat.

Record Scene := MkScene {
  parentOf : gmap Obj Obj;            (* [object.parent]; no entry: [null] *)
  childrenOf : gmap Obj (list Obj);   (* [object.children]; no entry: empty *)
  manualMatrix : gset Obj;            (* objects with [matrixAutoUpdate = false] *)
  destroyImageCalls : nat             (* how often [destroyImage] has run *)
}.

Definition children (s : Scene) (o : Obj) : list Obj :=
  default [] (childrenOf s !! o).

(** [children.splice(children.indexOf(object), 1)] *)
Fixpoint removeFirst (object : Obj) (l : list Obj) : list Obj :=
  match l with
  | [] => []
  | x :: rest => if decide (x = object) then rest else x :: removeFirst object rest
  end.

(** [this.remove(object)]: [const index = this.children.indexOf(object);
      if (index !== -1) { object.parent = null; this.children.splice(index, 1) }] *)
Definition remove (this object : Obj) (s : Scene) : Scene :=
  if decide (object ∈ children s this)
  then MkScene (delete object (parentOf s))
               (<[this := removeFirst object (children s this)]> (childrenOf s))
               (manualMatrix s) (destroyImageCalls s)
  else s.

(** [object.removeFromParent()] *)
Definition removeFromParent (object : Obj) (s : Scene) : Scene :=
  match parentOf s !! object with
  | Some parent => remove parent object s
  | None => s
  end.

(** [this.add(object)]: [if (object === this) return this;
      object.removeFromParent(); object.parent = this;
      this.children.push(object)] *)
Definition add (this object : Obj) (s : Scene) : Scene :=
  if decide (object = this) then s
  else
    let s := removeFromParent object s in
    MkScene (<[object := this]> (parentOf s))
            (<[this := children s this ++ [object]]> (childrenOf s))
            (manualMatrix s) (destroyImageCalls s).

(** [object.matrixAutoUpdate = false] *)
Definition setManualMatrix (object : Obj) (s : Scene) : Scene :=
  MkScene (parentOf s) (childrenOf s) ({[object]} ∪ manualMatrix s)
          (destroyImageCalls s).

(** The objects of one [Image]: itself, [this.container] and
    [this.internals.mesh]. *)
Record Image := MkImage { self : Obj; container : Obj; mesh : Obj }.

(** The constructor, as far as the scene graph goes:
    [this.container = new Object3D(); this.container.matrixAutoUpdate = false;
     this.container.add(this); this.matrixAutoUpdate = false;
     parent.add(this.container); this.internals = createImage(...);
     this.setProperties(...); this.container.add(this.internals.mesh)].
    [parent.add] is [Object3D.add]; the three objects are the new ones. *)
Definition construct (parent : Obj) (img : Image) (s : Scene) : Scene :=
  let s := setManualMatrix (container img) s in
  let s := add (container img) (self img) s in
  let s := setManualMatrix (self img) s in
  let s := add parent (container img) s in
  add (container img) (mesh img) s.

(** [destroy() { this.container.parent?.remove(this.container);
                 destroyImage(this.internals) }] *)
Definition destroy (img : Image) (s : Scene) : Scene :=
  let s := match parentOf s !! container img with
           | Some parent => remove parent (container img) s
           | None => s
           end in
  MkScene (parentOf s) (childrenOf s) (manualMatrix s) (S (destroyImageCalls s)).

(** A new object: it has no parent and no children, and is nobody's child. *)
Definition fresh (s : Scene) (o : Obj) : Prop :=
  parentOf s !! o = None ∧ childrenOf s !! o = None ∧ ∀ p, o ∉ children s p.

End ImageWrapper.

(** ** The script that writes [convert.ts]

    JavaScript strings are sequences of UTF-16 code units.  The script
    upper-cases single code units only ([fileName[0]], [x[1]],
    [component.charAt(0)]); what [toUpperCase] gives for one code unit is the
    runtime's and is taken as it comes. *)
Module Codegen.

Abbreviation CodeUnit := N.
Abbreviation JsString := (list N).

(** A string literal of the script, as code units. *)
Definition units (s : string) : JsString :=
  Ascii.N_of_ascii <$> String.list_ascii_of_string s.

Definition dot : CodeUnit := 46%N.
Definition hyphen : CodeUnit := 45%N.

(** The code units [.] of a regular expression does not match: LF, CR, LS
    and PS. *)
Definition isLineTerminator (u : CodeUnit) : bool :=
  bool_decide (u ∈ [10; 13; 8232; 8233]%N).

(** [conversionComponentMap]: a [Map] in insertion order; the entries pushed
    are given by the component they are made for. *)
Abbreviation ConversionMap := (list (list N * list (list N))).

Section Script.
Variable toUpperCase : CodeUnit → JsString.

(** [fileName.replace(/\.[^\.]+$/, '')]: the first position where a dot is
    followed, up to the end, by one or more code units that are not dots. *)
Fixpoint stripExtension (fileName : JsString) : JsString :=
  match fileName with
  | [] => []
  | u :: rest =>
      if bool_decide (u = dot) && bool_decide (rest ≠ []) && bool_decide (dot ∉ rest)
      then []
      else u :: stripExtension rest
  end.

(** [s.replace(/-./g, (x) => x[1].toUpperCase())]: from left to right, a
    hyphen and the code unit after it (unless a line terminator) become that
    code unit in upper case. *)
Fixpoint camelCase (s : JsString) : JsString :=
  match s with
  | [] => []
  | u :: rest =>
      match rest with
      | v :: rest' =>
          if bool_decide (u = hyphen) && negb (isLineTerminator v)
          then toUpperCase v ++ camelCase rest'
          else u :: camelCase rest
      | [] => [u]
      end
  end.

(** [(fileName) => { fileName = fileName.replace(fileExtensionRegex, '');
      return fileName[0].toUpperCase() +
             fileName.slice(1).replace(/-./g, (x) => x[1].toUpperCase()) }];
    [None] is the TypeError of [undefined.toUpperCase()]. *)
Definition toComponentName (fileName : JsString) : option JsString :=
  match stripExtension fileName with
  | [] => None
  | u :: rest => Some (toUpperCase u ++ camelCase rest)
  end.

(** [readdirSync(...).map(...)]: the first TypeError ends the script. *)
Definition componentNames (fileNames : list JsString) : option (list JsString) :=
  mapM toComponentName fileNames.

(** [s.startsWith(prefix)] and [s.includes(part)] *)
Fixpoint startsWith (s prefix : JsString) : bool :=
  match prefix, s with
  | [], _ => true
  | p :: prefix', u :: s' => bool_decide (u = p) && startsWith s' prefix'
  | _ :: _, [] => false
  end.

Fixpoint includes (s part : JsString) : bool :=
  startsWith s part ||
  match s with
  | [] => false
  | _ :: s' => includes s' part
  end.

(** [component === 'Defaults' ||
     component.charAt(0).toUpperCase() != component.charAt(0)] *)
Definition skipped (component : JsString) : bool :=
  bool_decide (component = units "Defaults") ||
  match component with
  | [] => false
  | u :: _ => negb (bool_decide (toUpperCase u = [u]))
  end.

(** [componentNames.find((name) => component.includes(name))] *)
Definition findComponentName (names : list JsString) (component : JsString)
    : option JsString :=
  List.find (λ name, includes component name) names.

(** [let cs = map.get(name); if (cs == null) { map.set(name, (cs = [])) };
     cs.push(entry)] *)
Fixpoint pushTo (name entry : JsString) (map : ConversionMap) : ConversionMap :=
  match map with
  | [] => [(name, [entry])]
  | (k, entries) :: rest =>
      if decide (k = name) then (k, entries ++ [entry]) :: rest
      else (k, entries) :: pushTo name entry rest
  end.

(** [map.get(name)], an absent key read as no entries. *)
Fixpoint entriesOf (map : ConversionMap) (name : JsString) : list JsString :=
  match map with
  | [] => []
  | (k, entries) :: rest => if decide (k = name) then entries else entriesOf rest name
  end.

(** How the script ends: with the TypeError of a file name, with
    [Error('no corresponding component name found for component ...')], or by
    writing the file from [imports] and the map. *)
Inductive Outcome :=
| ThrewTypeError
| ThrewNoComponentName (component : JsString)
| Wrote (imports : list JsString) (map : ConversionMap).

(** The [for (const component of components)] loop. *)
Fixpoint loop (names : list JsString) (components : list JsString)
    (imports : list JsString) (map : ConversionMap) : Outcome :=
  match components with
  | [] => Wrote imports map
  | component :: rest =>
      if skipped component then loop names rest imports map
      else
        match findComponentName names component with
        | None => ThrewNoComponentName component
        | Some name => loop names rest (imports ++ [component]) (pushTo name component map)
        end
  end.

(** The script, from the directory listing and the exported names. *)
Definition script (fileNames components : list JsString) : Outcome :=
  match componentNames fileNames with
  | None => ThrewTypeError
  | Some names => loop names components [] []
  end.

(** The components the loop does not skip. *)
Definition processed (components : list JsString) : list JsString :=
  filter (λ c, skipped c = false) components.

(** [words.join('-')] *)
Definition joinHyphen (words : list JsString) : JsString :=
  match words with
  | [] => []
  | w :: ws => w ++ concat ((λ w, hyphen :: w) <$> ws)
  end.

(** A word with its first code unit in upper case. *)
Definition capitalize (w : JsString) : JsString :=
  match w with
  | [] => []
  | u :: rest => toUpperCase u ++ rest
  end.

(** A file name without a stem: empty, or a dot and then no further dot. *)
Definition stemless (fileName : JsString) : Prop :=
  fileName = [] ∨ ∃ ext, fileName = dot :: ext ∧ ext ≠ [] ∧ dot ∉ ext.

End Script.

(** [toUpperCase] on the ASCII range: the letters a to z. *)
Definition asciiUpper (u : CodeUnit) : JsString :=
  if ((97 <=? u) && (u <=? 122))%N then [(u - 32)%N] else [u].

End Codegen.

Module DeferredFacts.
Import Deferred.

Lemma request_keeps_yoga node w :
  yogaNode (requestCalculateLayout node w) = yogaNode w.
Proof.
  unfold requestCalculateLayout.
  destruct (requestedNode w), (yogaNode w !! node); reflexivity.
Qed.

Lemma request_keeps_calls node w :
  layoutCalls (requestCalculateLayout node w) = layoutCalls w.
Proof.
  unfold requestCalculateLayout.
  destruct (requestedNode w), (yogaNode w !! node); reflexivity.
Qed.

Lemma request_when_pending node w :
  is_Some (requestedNode w) → requestCalculateLayout node w = w.
Proof.
  intros [p Hp]. unfold requestCalculateLayout. rewrite Hp. reflexivity.
Qed.

Lemma request_records node w :
  requestedNode w = None → is_Some (yogaNode w !! node) →
  requestedNode (requestCalculateLayout node w) = Some node.
Proof.
  intros Hnone [h Hh]. unfold requestCalculateLayout.
  rewrite Hnone, Hh. reflexivity.
Qed.

Lemma run_cons e es w : run (e :: es) w = run es (step w e).
Proof. reflexivity. Qed.

Lemma run_app es1 es2 w : run (es1 ++ es2) w = run es2 (run es1 w).
Proof. apply foldl_app. Qed.

(** Requests only: the engine handles and the call log stay as they were. *)
Lemma requests_keep nodes w :
  yogaNode (run (Request <$> nodes) w) = yogaNode w ∧
  layoutCalls (run (Request <$> nodes) w) = layoutCalls w.
Proof.
  revert w. induction nodes as [|n nodes IH]; intros w; [done|].
  rewrite fmap_cons, run_cons. destruct (IH (step w (Request n))) as [-> ->].
  simpl. by rewrite request_keeps_yoga, request_keeps_calls.
Qed.

(** Once a node is pending, further requests change nothing at all. *)
Lemma requests_when_pending nodes w :
  is_Some (requestedNode w) → run (Request <$> nodes) w = w.
Proof.
  intros Hp. induction nodes as [|n nodes IH]; [done|].
  rewrite fmap_cons, run_cons. simpl.
  rewrite request_when_pending by done. exact IH.
Qed.

(** C1: N >= 1 requests in one frame interval, each for a node with a
    non-null engine handle, leave exactly the first node pending (so never
    more than one), and the next run of the frame hook calls
    [calculateLayout] exactly once, on that first node, and empties the
    pending slot. *)
Theorem deferred_requests_coalesce (w : World) (first : NodeRef) (rest : list NodeRef) :
  requestedNode w = None →
  Forall (λ n, is_Some (yogaNode w !! n)) (first :: rest) →
  let w' := run (Request <$> (first :: rest)) w in
  requestedNode w' = Some first ∧
  layoutCalls w' = layoutCalls w ∧
  layoutCalls (onFrame w') =
    layoutCalls w ++ [MkLayoutCall first (yogaNode w !! first)] ∧
  requestedNode (onFrame w') = None.
Proof.
  intros Hnone Hall w'.
  apply Forall_cons in Hall as [Hfirst _].
  assert (Hw' : w' = requestCalculateLayout first w).
  { unfold w'. rewrite fmap_cons, run_cons. simpl. apply requests_when_pending.
    rewrite request_records by done. by eexists. }
  assert (Hp : requestedNode w' = Some first).
  { rewrite Hw'. by apply request_records. }
  assert (Hc : layoutCalls w' = layoutCalls w).
  { rewrite Hw'. apply request_keeps_calls. }
  assert (Hy : yogaNode w' = yogaNode w).
  { rewrite Hw'. apply request_keeps_yoga. }
  repeat split; [done|done| |]; unfold onFrame; rewrite Hp; simpl.
  - by rewrite Hc, Hy.
  - done.
Qed.

Lemma deferred_requests_coalesce_witness :
  let w := created {[ 1 := 10; 2 := 20; 3 := 30 ]} in
  let w' := run (Request <$> [2; 1; 3; 2]) w in
  requestedNode w' = Some 2 ∧
  layoutCalls w' = layoutCalls w ∧
  layoutCalls (onFrame w') = layoutCalls w ++ [MkLayoutCall 2 (yogaNode w !! 2)] ∧
  requestedNode (onFrame w') = None.
Proof.
  apply (deferred_requests_coalesce (created {[ 1 := 10; 2 := 20; 3 := 30 ]}) 2 [1; 3; 2]).
  - reflexivity.
  - repeat constructor; vm_compute; eauto.
Defined.

(** C7: a request for a node whose engine handle is null changes nothing: no
    node becomes pending through it, and whatever happens afterwards happens
    exactly as if the request had not been made, so no call of
    [calculateLayout] is due to it. *)
Theorem request_without_handle_is_noop (w : World) (node : NodeRef) :
  yogaNode w !! node = None →
  requestCalculateLayout node w = w ∧
  (requestedNode w = None → layoutCalls (onFrame (requestCalculateLayout node w)) = layoutCalls w) ∧
  (∀ es, run (Request node :: es) w = run es w).
Proof.
  intros Hnull.
  assert (Hid : requestCalculateLayout node w = w).
  { unfold requestCalculateLayout. rewrite Hnull. by destruct (requestedNode w). }
  split; [exact Hid|]. split.
  - intros Hnone. rewrite Hid. unfold onFrame. by rewrite Hnone.
  - intros es. rewrite run_cons. simpl. by rewrite Hid.
Qed.

Lemma request_without_handle_is_noop_witness :
  let w := created {[ 1 := 10 ]} in
  requestCalculateLayout 2 w = w ∧
  (requestedNode w = None → layoutCalls (onFrame (requestCalculateLayout 2 w)) = layoutCalls w) ∧
  (∀ es, run (Request 2 :: es) w = run es w).
Proof.
  apply (request_without_handle_is_noop (created {[ 1 := 10 ]}) 2).
  reflexivity.
Defined.

End DeferredFacts.

(** ** Facts about JavaScript numbers as [Map] keys *)
Module JsFacts.
Import Js.

Lemma SFeqb_cases x y :
  SFeqb x y = true → x = y ∨ (∃ sx sy, x = S754_zero sx ∧ y = S754_zero sy).
Proof.
  unfold SFeqb, SFcompare.
  destruct x as [sx|sx| |sx mx ex], y as [sy|sy| |sy my ey]; try discriminate;
    try (destruct sx; discriminate); try (destruct sy; discriminate).
  - intros _. right. eauto.
  - destruct sx, sy; try discriminate; auto.
  - destruct sx, sy; try discriminate;
      (destruct (Z.compare_spec ex ey) as [->| |]; try discriminate);
      (destruct (Pos.compare_cont Eq mx my) eqn:E; try discriminate);
      apply Pos.compare_eq in E; subst; auto.
Qed.

Lemma SFeqb_refl x : x ≠ S754_nan → SFeqb x x = true.
Proof.
  unfold SFeqb, SFcompare. destruct x as [s|s| |s m e]; try done.
  - by destruct s.
  - intros _. rewrite Z.compare_refl.
    change (Pos.compare_cont Eq m m) with (Pos.compare m m).
    rewrite Pos.compare_refl. by destruct s.
Qed.

Lemma is_nan_spec x : is_nan x = true → Prim2SF x = S754_nan.
Proof.
  unfold is_nan. rewrite FloatAxioms.eqb_spec. intros Hx.
  destruct (Prim2SF x) eqn:E; try done; exfalso.
  all: rewrite SFeqb_refl in Hx; done.
Qed.

(** Two numbers that are the same [Map] key are the same double, or both are
    zeros (of any sign). *)
Lemma sameValueZero_cases x y :
  sameValueZero x y = true →
  x = y ∨ (∃ sx sy, Prim2SF x = S754_zero sx ∧ Prim2SF y = S754_zero sy).
Proof.
  unfold sameValueZero. intros Hxy. apply orb_true_iff in Hxy as [Hxy|Hxy].
  - rewrite FloatAxioms.eqb_spec in Hxy.
    apply SFeqb_cases in Hxy as [Hxy|Hxy]; [|by right].
    left. by apply Prim2SF_inj.
  - apply andb_true_iff in Hxy as [Hx Hy]. left. apply Prim2SF_inj.
    by rewrite (is_nan_spec _ Hx), (is_nan_spec _ Hy).
Qed.

(** Apart from the zeros, the same key is the same double. *)
Lemma sameValueZero_eq x y :
  sameValueZero x y = true → isZero y = false → x = y.
Proof.
  intros Hxy Hy. apply sameValueZero_cases in Hxy as [->|(sx & sy & _ & Hzero)]; [done|].
  unfold isZero in Hy. rewrite FloatAxioms.eqb_spec, Hzero in Hy. done.
Qed.

Lemma sameValueZero_refl x : sameValueZero x x = true.
Proof. unfold sameValueZero, is_nan. by destruct (x =? x)%float. Qed.

Lemma sameValueZero_div_zero x y p sx sy :
  Prim2SF x = S754_zero sx → Prim2SF y = S754_zero sy →
  sameValueZero (x / p) (y / p) = true.
Proof.
  intros Hx Hy. unfold sameValueZero, is_nan.
  rewrite !FloatAxioms.eqb_spec, !FloatAxioms.div_spec, Hx, Hy.
  destruct (Prim2SF p) as [s|s| |s m e]; simpl; try done;
    by destruct sx, sy, s.
Qed.

(** Dividing two equal keys by the same number gives equal keys. *)
Lemma sameValueZero_div x y p :
  sameValueZero x y = true → sameValueZero (x / p) (y / p) = true.
Proof.
  intros Hxy. apply sameValueZero_cases in Hxy as [->|(sx & sy & Hx & Hy)].
  - apply sameValueZero_refl.
  - by eapply sameValueZero_div_zero.
Qed.

End JsFacts.

(** ** Size translation *)
Module SizeFacts.
Import Js Size JsFacts.

Lemma mapOk_nil p : mapOk p [].
Proof. constructor. Qed.

(** An entry found under [value] was computed for a key that the [Map]
    does not tell apart from [value]. *)
Lemma mapGet_Some p map value entry :
  mapOk p map → mapGet map value = Some entry →
  ∃ k, sameKey k value = true ∧ entry = sizeComputed p k.
Proof.
  intros Hok. induction Hok as [|[k e] map Hke Hok IH]; simpl; [done|].
  destruct (sameKey k value) eqn:Hk.
  - intros [= <-]. by exists k.
  - exact IH.
Qed.

(** The transformer keeps the map as it should be. *)
Lemma sizeTransformer_mapOk {T} `{PropertyTarget T} p to map value (target : T) :
  mapOk p map → mapOk p (sizeTransformer p to map value target).1.
Proof.
  intros Hok. unfold sizeTransformer. destruct (mapGet map value); simpl; [done|].
  apply Forall_app. split; [done|]. by repeat constructor.
Qed.

(** A signal computed for an indistinguishable key yields the same number,
    up to the sign of zero. *)
Lemma sizeComputed_sameKey p k value σ :
  sameKey k value = true →
  match readReactive σ value with
  | JsNumber s =>
      ∃ w, sizeComputed p k σ = JsNumber w ∧
           sameValueZero w (s / p) = true ∧
           (isZero s = false → w = (s / p)%float)
  | JsNull | JsUndefined => sizeComputed p k σ = JsUndefined
  end.
Proof.
  unfold sizeComputed.
  destruct k as [[| |x]|c], value as [[| |y]|d]; simpl; try done.
  - intros Hxy. eexists. split; [done|]. split; [by apply sameValueZero_div|].
    intros Hy. by rewrite (sameValueZero_eq _ _ Hxy Hy).
  - intros Hcd. apply bool_decide_eq_true in Hcd as ->.
    destruct (default JsUndefined (σ !! d)); try done.
    eexists. split; [done|]. split; [apply sameValueZero_refl|done].
Qed.

Lemma sameKey_refl value : sameKey value value = true.
Proof.
  destruct value as [[| |x]|c]; simpl; try done.
  - apply sameValueZero_refl.
  - by apply bool_decide_eq_true.
Qed.

Lemma sizeTransformer_writes {T} `{PropertyTarget T} p to map value (target : T) σ :
  mapOk p map →
  ∃ entry,
    (sizeTransformer p to map value target).2 = target_add to (Derived entry) target ∧
    match readReactive σ value with
    | JsNumber s =>
        ∃ w, entry σ = JsNumber w ∧
             sameValueZero w (s / p) = true ∧
             (isZero s = false → w = (s / p)%float)
    | JsNull | JsUndefined => entry σ = JsUndefined
    end.
Proof.
  intros Hok. unfold sizeTransformer.
  destruct (mapGet map value) as [entry|] eqn:Hget; simpl.
  - destruct (mapGet_Some _ _ _ _ Hok Hget) as (k & Hk & ->).
    eexists. split; [done|]. by apply sizeComputed_sameKey.
  - eexists. split; [done|]. apply sizeComputed_sameKey, sameKey_refl.
Qed.

(** C4: the root's pixel size is the [pixelSize] property when that is set
    and 0.002 when it is unset.  With it, the transformer stored under
    [sizeX] writes one derived property, [width], and the one stored under
    [sizeY] writes [height]: a signal that is [s / pixelSize] when the size
    resolves to the number [s] and [undefined] when it resolves to [null] or
    [undefined].  The number written is the very double [s / pixelSize]
    unless [s] is a zero, where the closure's [Map] may hand back the signal
    made for the zero of the other sign: then it is still [s / pixelSize] as
    [===] and a [Map] key see it.  For a size of 100 the written signal is
    50000, both with [pixelSize] set to 0.002 and with [pixelSize] unset. *)
Theorem size_translator_writes_scaled {T} `{PropertyTarget T}
    (pixelSizeProperty : option float) (to : string) (map : SizeMap)
    (value : Reactive) (target : T) (σ : SignalStore) :
  mapOk (rootPixelSize pixelSizeProperty) map →
  let p := rootPixelSize pixelSizeProperty in
  let q := match pixelSizeProperty with
           | Some explicit => explicit
           | None => 0.002%float
           end in
  p = q ∧
  rootSizeTranslators (T:=T) p !! "sizeX" = Some (sizeTransformer q "width") ∧
  rootSizeTranslators (T:=T) p !! "sizeY" = Some (sizeTransformer q "height") ∧
  (createSizeTranslator (T:=T) p "sizeX" "width").1 = [] ∧
  (∃ entry,
     (sizeTransformer p to map value target).2 = target_add to (Derived entry) target ∧
     mapOk p (sizeTransformer p to map value target).1 ∧
     match readReactive σ value with
     | JsNumber s =>
         ∃ w, entry σ = JsNumber w ∧
              sameValueZero w (s / q) = true ∧
              (isZero s = false → w = (s / q)%float)
     | JsNull | JsUndefined => entry σ = JsUndefined
     end) ∧
  rootPixelSize None = 0.002%float ∧
  (∀ explicit, rootPixelSize (Some explicit) = explicit) ∧
  (∃ entry,
     (sizeTransformer (rootPixelSize (Some 0.002%float)) to []
        (Plain (JsNumber 100)) target).2 = target_add to (Derived entry) target ∧
     entry σ = JsNumber 50000) ∧
  (∃ entry,
     (sizeTransformer (rootPixelSize None) to [] (Plain (JsNumber 100)) target).2 =
       target_add to (Derived entry) target ∧
     entry σ = JsNumber 50000).
Proof.
  intros Hok p q.
  assert (Hpq : p = q) by (unfold p, q, rootPixelSize; by destruct pixelSizeProperty).
  split; [exact Hpq|]. rewrite <- Hpq.
  split; [reflexivity|]. split; [reflexivity|]. split; [reflexivity|].
  split.
  { destruct (sizeTransformer_writes p to map value target σ Hok) as (entry & Hw & Hv).
    exists entry. split; [done|]. split; [|done]. by apply sizeTransformer_mapOk. }
  split; [reflexivity|]. split; [reflexivity|].
  split; eexists; split; reflexivity.
Qed.

(** An explicit pixel size of a half: a size of 5 is written as 10 (with the
    default pixel size it would be 2500). *)
Lemma size_translator_writes_scaled_witness :
  mapOk (rootPixelSize (Some 0.5%float)) [] ∧
  rootPixelSize (Some 0.5%float) = 0.5%float ∧
  ∃ entry,
    (sizeTransformer (rootPixelSize (Some 0.5%float)) "width" []
       (Plain (JsNumber 5)) ([] : Recorder)).2 = [("width", Derived entry)] ∧
    entry (∅ : SignalStore) = JsNumber 10.
Proof.
  assert (Hok : mapOk (rootPixelSize (Some 0.5%float)) []) by constructor.
  split; [exact Hok|].
  destruct (size_translator_writes_scaled (Some 0.5%float) "width" []
              (Plain (JsNumber 5)) ([] : Recorder) ∅ Hok)
    as (Hp & _ & _ & _ & (entry & Hw & _ & w & Hentry & _ & Hv) & _).
  split; [exact Hp|].
  exists entry. split; [exact Hw|].
  rewrite Hentry, (Hv eq_refl). reflexivity.
Defined.

End SizeFacts.

(** ** Merged properties: precedence *)
Module MergedFacts.
Import Js Merged.

Lemma stack_write key k v mp :
  stack (write k v mp) key =
    if decide (k = key) then v :: stack mp key else stack mp key.
Proof.
  unfold stack at 1, write; simpl. rewrite lookup_insert.
  destruct (decide (k = key)) as [->|]; done.
Qed.

Lemma firstDefined_app σ vs ws :
  firstDefined σ (vs ++ ws) =
    match firstDefined σ vs with
    | JsUndefined => firstDefined σ ws
    | x => x
    end.
Proof.
  induction vs as [|v vs IH]; simpl; [done|].
  destruct (resolve σ v); done.
Qed.

Lemma bindings_app key s1 s2 :
  bindings key (s1 ++ s2) = bindings key s1 ++ bindings key s2.
Proof. unfold bindings. by rewrite filter_app, fmap_app. Qed.

Section Precedence.
Variable transformers : PropertyTransformers.
Variable σ : SignalStore.
Variable key : string.

(** The key is an ordinary one: no transformer is registered for it, and no
    transformer writes it. *)
Hypothesis untransformed : transformers !! key = None.
Hypothesis unwritten :
  ∀ k transform value mp,
    transformers !! k = Some transform → stack (transform value mp) key = stack mp key.

Lemma stack_add k value mp :
  stack (add transformers k value mp) key =
    if decide (k = key) then Given value :: stack mp key else stack mp key.
Proof.
  unfold add. destruct (transformers !! k) as [transform|] eqn:Hk.
  - rewrite (unwritten _ _ _ _ Hk).
    destruct (decide (k = key)) as [->|]; [congruence|done].
  - apply stack_write.
Qed.

Lemma stack_addSource src mp :
  stack (addSource transformers src mp) key =
    (Given <$> reverse (bindings key src)) ++ stack mp key.
Proof.
  revert mp. induction src as [|[k value] src IH]; intros mp; [done|].
  unfold addSource in *; simpl. rewrite IH, stack_add.
  change ((k, value) :: src) with ([(k, value)] ++ src).
  rewrite bindings_app, reverse_app, fmap_app, <- app_assoc. f_equal.
  unfold bindings. rewrite filter_cons; simpl.
  destruct (decide (k = key)); done.
Qed.

(** Ingesting one more source: its value wins when it defines the key. *)
Lemma read_addSource src mp :
  read σ (from_option (λ s, addSource transformers s mp) mp src) key =
    match sourceValue σ src key with
    | JsUndefined => read σ mp key
    | x => x
    end.
Proof.
  unfold read, sourceValue. destruct src as [src|]; simpl; [|done].
  by rewrite stack_addSource, firstDefined_app.
Qed.

Lemma read_addAll sources mp :
  read σ (addAll transformers sources mp) key = winner σ key sources (read σ mp key).
Proof.
  revert mp. induction sources as [|src sources IH]; intros mp; [done|].
  unfold addAll, winner in *; simpl. by rewrite IH, read_addSource.
Qed.

Lemma winner_app lo hi start :
  winner σ key (lo ++ hi) start = winner σ key hi (winner σ key lo start).
Proof. apply foldl_app. Qed.

Lemma winner_undefined hi start :
  Forall (λ src, ¬ defines σ key src) hi → winner σ key hi start = start.
Proof.
  intros Hhi. revert start. induction Hhi as [|src hi Hsrc _ IH]; intros start; [done|].
  unfold winner in *; simpl. rewrite IH.
  unfold defines in Hsrc. destruct (sourceValue σ src key); [done|..]; by destruct Hsrc.
Qed.

Lemma winner_defined hi start start' :
  Exists (defines σ key) hi → winner σ key hi start = winner σ key hi start'.
Proof.
  intros Hhi. revert start start'.
  induction Hhi as [src hi Hsrc|src hi _ IH]; intros start start'.
  - unfold winner; simpl. unfold defines in Hsrc.
    destruct (sourceValue σ src key); done.
  - unfold winner in *; simpl. apply IH.
Qed.


End Precedence.



End MergedFacts.

(** ** The root matrix: anchors *)
Module RootMatrixFacts.
Import Num Three RootMatrix.
Local Open Scope jsnum_scope.

Section Anchors.
Context {num : Type} `{Number num}.
Variable alignmentXMap : AnchorX → num.
Variable alignmentYMap : AnchorY → num.

(** C8: when neither [anchorX] nor [anchorY] is defined, the root matrix is
    the one computed for [anchorX = "center"] and [anchorY = "center"]. *)
Theorem unset_anchor_is_center (matrix : option (Matrix4 num)) (size : num * num)
    (pixelSize : num) :
  computeRootMatrix alignmentXMap alignmentYMap (MkAnchors None None)
    matrix size pixelSize =
  computeRootMatrix alignmentXMap alignmentYMap
    (MkAnchors (Some centerX) (Some centerY)) matrix size pixelSize.
Proof. reflexivity. Qed.

End Anchors.

(** *** In doubles *)

Lemma binary_round_aux_opp prec emax s m e l :
  SFopp (binary_round_aux prec emax s m e l) =
    binary_round_aux prec emax (negb s) m e l.
Proof.
  unfold binary_round_aux.
  destruct (shr_fexp prec emax m e l) as [mrs' e'].
  destruct (shr_fexp prec emax _ e' loc_Exact) as [mrs'' e''].
  destruct (shr_m mrs'') as [|p|p]; try reflexivity.
  destruct (e'' <=? emax - prec)%Z; reflexivity.
Qed.

Lemma SFmul_opp_l prec emax x y :
  SFmul prec emax (SFopp x) y = SFopp (SFmul prec emax x y).
Proof.
  destruct x as [sx|sx| |sx mx ex], y as [sy|sy| |sy my ey]; simpl;
    rewrite ?binary_round_aux_opp; try reflexivity;
    by destruct sx, sy.
Qed.

(** Rounding is symmetric: negating a factor negates the product, for all
    doubles (infinities, zeros and NaN included). *)
Lemma mul_opp_l (x y : float) : (- x * y = - (x * y))%float.
Proof.
  apply Prim2SF_inj.
  rewrite opp_spec, !mul_spec, opp_spec. apply SFmul_opp_l.
Qed.

Section Doubles.
Variable alignmentXMap : AnchorX → float.
Variable alignmentYMap : AnchorY → float.


End Doubles.



End RootMatrixFacts.

(** ** The root's teardown *)
Module LifecycleFacts.
Import Lifecycle.

Lemma call_onFrameSet r c h :
  h ∈ onFrameSet (call r c) ↔ h ∈ onFrameSet r ∧ c ≠ DeleteFrameHook h.
Proof.
  destruct c as [hook| |owner index]; simpl.
  - rewrite list_elem_of_filter. split.
    + intros [Hne Hin]. split; [done|]. congruence.
    + intros [Hin Hne]. split; [|done]. congruence.
  - split; [intros Hin; split; [done|discriminate] | tauto].
  - split; [intros Hin; split; [done|discriminate] | tauto].
Qed.

Lemma call_released r c : released (call r c) = released r ++ [c].
Proof. by destruct c. Qed.

Lemma call_subscriptions r c : subscriptions (call r c) = subscriptions r.
Proof. by destruct c. Qed.

Lemma call_nodeDestroys r c :
  nodeDestroys (call r c) =
    nodeDestroys r + length (filter (λ t, t = DestroyNode) [c]).
Proof. destruct c; simpl; lia. Qed.

(** Calling every entry of a list, in order. *)
Lemma calls_onFrameSet l r h :
  h ∈ onFrameSet (foldl call r l) ↔ h ∈ onFrameSet r ∧ DeleteFrameHook h ∉ l.
Proof.
  revert r. induction l as [|c l IH]; intros r; simpl.
  - split; [intros Hin; split; [done|apply not_elem_of_nil] | tauto].
  - rewrite IH, call_onFrameSet, not_elem_of_cons.
    split; [intros [[Hin Hc] Hl] | intros [Hin [Hc Hl]]]; repeat split; congruence.
Qed.

Lemma calls_released l r : released (foldl call r l) = released r ++ l.
Proof.
  revert r. induction l as [|c l IH]; intros r; simpl.
  - by rewrite app_nil_r.
  - by rewrite IH, call_released, <- app_assoc.
Qed.

Lemma calls_nodeDestroys l r :
  nodeDestroys (foldl call r l) =
    nodeDestroys r + length (filter (λ t, t = DestroyNode) l).
Proof.
  revert r. induction l as [|c l IH]; intros r; simpl.
  { lia. }
  rewrite IH, call_nodeDestroys, !filter_cons, filter_nil. simpl.
  destruct (decide (c = DestroyNode)); simpl; lia.
Qed.

(** Once the list is empty, destroying does nothing. *)
Lemma destroyRoot_drained r : subscriptions r = [] → destroyRoot r = r.
Proof.
  intros Hnil. unfold destroyRoot, unsubscribeSubscriptions.
  rewrite Hnil. simpl. destruct r; simpl in *. by subst.
Qed.

Lemma destroyRoot_subscriptions r : subscriptions (destroyRoot r) = [].
Proof. reflexivity. Qed.

Lemma subscriptions_collaborate owner count r :
  subscriptions (collaborate owner count r) =
    subscriptions r ++ (Pushed owner <$> seq 0 count).
Proof. reflexivity. Qed.

Lemma subscriptions_push callback r :
  subscriptions (push callback r) = subscriptions r ++ [callback].
Proof. reflexivity. Qed.

Lemma subscriptions_register hook r :
  subscriptions (register hook r) = subscriptions r ++ [DeleteFrameHook hook].
Proof. reflexivity. Qed.

Lemma onFrameSet_collaborate owner count r :
  onFrameSet (collaborate owner count r) = onFrameSet r.
Proof. reflexivity. Qed.

Lemma onFrameSet_push callback r : onFrameSet (push callback r) = onFrameSet r.
Proof. reflexivity. Qed.

Lemma onFrameSet_register hook r :
  onFrameSet (register hook r) =
    if decide (hook ∈ onFrameSet r) then onFrameSet r else onFrameSet r ++ [hook].
Proof. reflexivity. Qed.

(** The list [createRoot] leaves behind, in the order of its statements. *)
Lemma createRoot_subscriptions pushes :
  subscriptions (createRoot pushes) =
    (Pushed SetupCursorCleanup <$> seq 0 (pushes SetupCursorCleanup)) ++
    [DeleteFrameHook DeferredLayoutOnFrame] ++
    (Pushed NewFlexNode <$> seq 0 (pushes NewFlexNode)) ++
    [DestroyNode] ++
    (Pushed ApplyTransform <$> seq 0 (pushes ApplyTransform)) ++
    [DeleteFrameHook PanelGroupOnFrame] ++
    [DeleteFrameHook CameraDistanceOnFrame] ++
    (Pushed CreateInstancedPanel <$> seq 0 (pushes CreateInstancedPanel)) ++
    (Pushed CreateScrollbars <$> seq 0 (pushes CreateScrollbars)) ++
    (Pushed SetupLayoutListeners <$> seq 0 (pushes SetupLayoutListeners)) ++
    (Pushed SetupScrollHandler <$> seq 0 (pushes SetupScrollHandler)) ++
    [DeleteFrameHook ScrollOnFrame] ++
    [DeleteFrameHook GlyphGroupOnFrame] ++
    (Pushed CreateInteractionPanel <$> seq 0 (pushes CreateInteractionPanel)).
Proof.
  unfold createRoot. cbv zeta.
  repeat first [ rewrite subscriptions_collaborate
               | rewrite subscriptions_register
               | rewrite subscriptions_push ].
  cbn [subscriptions app]. rewrite <- !app_assoc. reflexivity.
Qed.

Lemma createRoot_onFrameSet pushes :
  onFrameSet (createRoot pushes) =
    [DeferredLayoutOnFrame; PanelGroupOnFrame; CameraDistanceOnFrame;
     ScrollOnFrame; GlyphGroupOnFrame].
Proof.
  unfold createRoot. cbv zeta.
  repeat first [ rewrite onFrameSet_collaborate
               | rewrite onFrameSet_push
               | rewrite onFrameSet_register; cbn [onFrameSet];
                 rewrite decide_False by (by vm_compute; inversion 1) ].
  reflexivity.
Qed.

Lemma NoDup_pushed owner count : NoDup (Pushed owner <$> seq 0 count).
Proof.
  apply NoDup_fmap_2; [|apply NoDup_seq]. intros i j. congruence.
Qed.

Lemma createRoot_NoDup pushes : NoDup (subscriptions (createRoot pushes)).
Proof.
  rewrite createRoot_subscriptions.
  repeat (apply NoDup_app; split; [first [apply NoDup_pushed | apply NoDup_singleton]|split]);
    try apply NoDup_pushed;
    intros x Hx;
    repeat (rewrite ?not_elem_of_app, ?not_elem_of_cons, ?list_elem_of_fmap; split);
    try apply not_elem_of_nil;
    try (apply list_elem_of_fmap in Hx as (? & -> & _));
    try (apply list_elem_of_singleton in Hx as ->);
    try discriminate; try (intros (? & ? & _); discriminate);
    try (rewrite list_elem_of_fmap; intros (? & ? & _); discriminate).
Qed.

Lemma createRoot_released pushes : released (createRoot pushes) = [].
Proof. reflexivity. Qed.

Lemma createRoot_nodeDestroys pushes : nodeDestroys (createRoot pushes) = 0.
Proof. reflexivity. Qed.

Lemma destroyRoot_released r :
  released (destroyRoot r) = released r ++ subscriptions r.
Proof. unfold destroyRoot, unsubscribeSubscriptions. apply calls_released. Qed.

Lemma destroyRoot_nodeDestroys r :
  nodeDestroys (destroyRoot r) =
    nodeDestroys r + length (filter (λ t, t = DestroyNode) (subscriptions r)).
Proof. unfold destroyRoot, unsubscribeSubscriptions. apply calls_nodeDestroys. Qed.

Lemma destroyRoot_onFrameSet r hook :
  hook ∈ onFrameSet (destroyRoot r) ↔
  hook ∈ onFrameSet r ∧ DeleteFrameHook hook ∉ subscriptions r.
Proof. unfold destroyRoot, unsubscribeSubscriptions. apply calls_onFrameSet. Qed.

Lemma createRoot_deletes_its_hooks pushes hook :
  DeleteFrameHook hook ∈ subscriptions (createRoot pushes).
Proof.
  rewrite createRoot_subscriptions.
  destruct hook; rewrite !elem_of_app, !list_elem_of_singleton; tauto.
Qed.

Lemma filter_pushed owner (l : list nat) :
  filter (λ t, t = DestroyNode) (Pushed owner <$> l) = [].
Proof.
  induction l as [|i l IH]; [done|].
  rewrite fmap_cons, filter_cons. by destruct (decide _).
Qed.

Lemma createRoot_one_DestroyNode pushes :
  length (filter (λ t, t = DestroyNode) (subscriptions (createRoot pushes))) = 1.
Proof.
  rewrite createRoot_subscriptions, !filter_app, !filter_pushed. reflexivity.
Qed.

(** C6: [destroyRoot] is a total function, so neither call throws.  The
    first call runs every callback of the subscription list once (the list
    has no callback twice, and holds the removal of each of the five frame
    hooks [createRoot] added), which empties [onFrameSet] as it was before
    construction and destroys the node once; it leaves the list empty, so
    the second call runs nothing and changes nothing. *)
Theorem destroy_root_twice (pushes : Collaborator → nat) :
  let root := createRoot pushes in
  let once := destroyRoot root in
  let twice := destroyRoot once in
  onFrameSet root =
    [DeferredLayoutOnFrame; PanelGroupOnFrame; CameraDistanceOnFrame;
     ScrollOnFrame; GlyphGroupOnFrame] ∧
  (∀ hook, DeleteFrameHook hook ∈ subscriptions root) ∧
  NoDup (subscriptions root) ∧
  released once ≡ₚ subscriptions root ∧
  onFrameSet once = [] ∧
  nodeDestroys once = 1 ∧
  subscriptions once = [] ∧
  twice = once ∧
  released twice ≡ₚ subscriptions root.
Proof.
  intros root once twice.
  assert (Hreleased : released once = subscriptions root).
  { unfold once, root.
    by rewrite destroyRoot_released, createRoot_released, app_nil_l. }
  assert (Htwice : twice = once) by (by apply destroyRoot_drained).
  split; [apply createRoot_onFrameSet|].
  split; [apply createRoot_deletes_its_hooks|].
  split; [apply createRoot_NoDup|].
  split; [by rewrite Hreleased|].
  split.
  { apply elem_of_nil_inv. intros hook Hin.
    apply destroyRoot_onFrameSet in Hin as [_ Hnot].
    apply Hnot, createRoot_deletes_its_hooks. }
  split.
  { unfold once, root.
    by rewrite destroyRoot_nodeDestroys, createRoot_nodeDestroys,
      createRoot_one_DestroyNode. }
  split; [reflexivity|].
  split; [exact Htwice|].
  by rewrite Htwice, Hreleased.
Qed.

End LifecycleFacts.

(** ** The root's frame tick and its teardown *)
Module RootFramesFacts.
Import Deferred Lifecycle RootFrames DeferredFacts LifecycleFacts.

Lemma destroy_twice n w : destroy n (destroy n w) = destroy n w.
Proof. unfold destroy; simpl. by rewrite delete_delete_eq. Qed.

Lemma callLive_internals cs l :
  internals (foldl callLive l cs) = foldl call (internals l) cs.
Proof. revert l. induction cs as [|c cs IH]; intros l; [done|]. simpl. by rewrite IH. Qed.

Lemma callLive_node cs l : node (foldl callLive l cs) = node l.
Proof. revert l. induction cs as [|c cs IH]; intros l; [done|]. simpl. by rewrite IH. Qed.

(** The drain destroys the node when the list holds [() => node.destroy()],
    and leaves the closure alone otherwise. *)
Lemma callLive_closure cs l :
  closure (foldl callLive l cs) =
    if decide (DestroyNode ∈ cs) then destroy (node l) (closure l) else closure l.
Proof.
  revert l. induction cs as [|c cs IH]; intros l.
  - destruct (decide (DestroyNode ∈ [])) as [Hin|_]; [|done].
    by apply elem_of_nil in Hin.
  - cbn [foldl]. rewrite IH. cbn [closure node callLive].
    destruct (decide (DestroyNode ∈ cs)) as [Hin|Hnot];
      destruct (decide (DestroyNode ∈ c :: cs)) as [Hin'|Hnot'].
    + destruct c; [done| |done]. apply destroy_twice.
    + destruct Hnot'. by right.
    + apply elem_of_cons in Hin' as [<-|Hin']; done.
    + destruct c; [done| |done]. destruct Hnot'. by left.
Qed.

Lemma destroyRootLive_internals l :
  internals (destroyRootLive l) = destroyRoot (internals l).
Proof.
  unfold destroyRootLive, destroyRoot, unsubscribeSubscriptions.
  cbn [internals]. by rewrite callLive_internals.
Qed.

Lemma createRoot_destroys_node pushes : DestroyNode ∈ subscriptions (createRoot pushes).
Proof.
  rewrite createRoot_subscriptions.
  rewrite !elem_of_app, !list_elem_of_singleton. tauto.
Qed.

Lemma destroyRoot_createRoot_onFrameSet pushes :
  onFrameSet (destroyRoot (createRoot pushes)) = [].
Proof.
  apply elem_of_nil_inv. intros hook Hin.
  apply destroyRoot_onFrameSet in Hin as [_ Hnot].
  apply Hnot, createRoot_deletes_its_hooks.
Qed.

(** Hooks other than the deferred one make no call of [calculateLayout]. *)
Lemma other_hooks_keep_calls asks hooks w :
  DeferredLayoutOnFrame ∉ hooks →
  layoutCalls (foldl (runHook asks) w hooks) = layoutCalls w.
Proof.
  revert w. induction hooks as [|hook hooks IH]; intros w Hnot; [done|].
  apply not_elem_of_cons in Hnot as [Hne Hnot].
  cbn [foldl]. rewrite IH by done.
  destruct hook; [done|..]; apply requests_keep.
Qed.

(** C2, as the code has it: a layout pass is requested for the root's node,
    which holds an engine handle, and the root is destroyed before the next
    tick.  The drain of [destroyRoot] takes the deferred hook off
    [onFrameSet] and destroys the node, so the tick runs no hook: it makes no
    call of [calculateLayout] at all and changes nothing, however often it
    comes.  Without the destruction the same tick makes exactly one call, on
    the node with its handle.  The engine handle is checked by the request
    function, when a request is made: a request for the destroyed node
    records nothing. *)
Theorem destroyed_root_is_not_laid_out (pushes : Collaborator → nat)
    (asks : FrameHook → list NodeRef) (w : World) (n : NodeRef) :
  requestedNode w = None →
  is_Some (yogaNode w !! n) →
  let requested := request (MkLive (createRoot pushes) w n) in
  let destroyed := destroyRootLive requested in
  requestedNode (closure requested) = Some n ∧
  layoutCalls (closure (frameTick asks requested)) =
    layoutCalls w ++ [MkLayoutCall n (yogaNode w !! n)] ∧
  internals destroyed = destroyRoot (createRoot pushes) ∧
  onFrameSet (internals destroyed) = [] ∧
  yogaNode (closure destroyed) !! n = None ∧
  frameTick asks destroyed = destroyed ∧
  layoutCalls (closure (frameTick asks destroyed)) = layoutCalls w ∧
  requestCalculateLayout n (destroy n w) = destroy n w.
Proof.
  intros Hnone [h Hh] requested destroyed.
  assert (Hrequested : closure requested =
            MkWorld (yogaNode w) (Some n) (layoutCalls w)).
  { unfold requested, request; cbn [closure node].
    unfold requestCalculateLayout. by rewrite Hnone, Hh. }
  assert (Hinternals : internals destroyed = destroyRoot (createRoot pushes))
    by apply destroyRootLive_internals.
  assert (Hempty : onFrameSet (internals destroyed) = []).
  { rewrite Hinternals. apply destroyRoot_createRoot_onFrameSet. }
  assert (Hclosure : closure destroyed = destroy n (closure requested)).
  { unfold destroyed, destroyRootLive. cbn [closure].
    rewrite callLive_closure. cbn [internals node request].
    rewrite decide_True by apply createRoot_destroys_node. done. }
  assert (Htick : frameTick asks destroyed = destroyed).
  { unfold frameTick. rewrite Hempty. by destruct destroyed. }
  split; [by rewrite Hrequested|].
  split.
  { unfold frameTick. cbn [closure].
    replace (internals requested) with (createRoot pushes) by reflexivity.
    rewrite createRoot_onFrameSet.
    etrans.
    { apply (other_hooks_keep_calls asks
               [PanelGroupOnFrame; CameraDistanceOnFrame; ScrollOnFrame; GlyphGroupOnFrame]
               (onFrame (closure requested))).
      rewrite !not_elem_of_cons. repeat split; try discriminate.
      apply not_elem_of_nil. }
    rewrite Hrequested. reflexivity. }
  split; [exact Hinternals|]. split; [exact Hempty|].
  split; [rewrite Hclosure; unfold destroy; cbn [yogaNode]; apply lookup_delete_eq|].
  split; [exact Htick|].
  split; [by rewrite Htick, Hclosure, Hrequested|].
  unfold requestCalculateLayout, destroy; cbn [requestedNode yogaNode].
  by rewrite Hnone, lookup_delete_eq.
Qed.

(** Node 1 got handle 10 after the closure was made; no collaborator pushes
    anything, and the scroll hook asks for a layout pass of node 1 at every
    tick. *)
Lemma destroyed_root_is_not_laid_out_witness :
  let asks := λ hook, match hook with ScrollOnFrame => [1] | _ => [] end in
  let w := attach 1 10 (created ∅) in
  let requested := request (MkLive (createRoot (λ _, 0)) w 1) in
  let destroyed := destroyRootLive requested in
  requestedNode (closure requested) = Some 1 ∧
  layoutCalls (closure (frameTick asks requested)) = [MkLayoutCall 1 (Some 10)] ∧
  onFrameSet (internals destroyed) = [] ∧
  yogaNode (closure destroyed) !! 1 = None ∧
  frameTick asks destroyed = destroyed ∧
  layoutCalls (closure (frameTick asks destroyed)) = [].
Proof.
  intros asks w requested destroyed.
  destruct (destroyed_root_is_not_laid_out (λ _, 0) asks w 1)
    as (Hreq & Hone & _ & Hset & Hgone & Htick & Hzero & _).
  - reflexivity.
  - exists 10. reflexivity.
  - repeat split; assumption.
Defined.

(** C2 as stated fails in its last clause: the deferred callback does not
    check the engine handle.  After the request and the root's destruction
    node 1 is still pending and holds no handle; were the callback run on
    that state, it would call [calculateLayout] on node 1.  What keeps the
    call from being made is that the callback is off [onFrameSet]. *)
Lemma deferred_callback_checks_no_handle :
  let w := attach 1 10 (created ∅) in
  let destroyed := destroyRootLive (request (MkLive (createRoot (λ _, 0)) w 1)) in
  requestedNode (closure destroyed) = Some 1 ∧
  yogaNode (closure destroyed) !! 1 = None ∧
  layoutCalls (closure destroyed) = [] ∧
  layoutCalls (onFrame (closure destroyed)) = [MkLayoutCall 1 None] ∧
  layoutCalls (onFrame (closure destroyed)) ≠ layoutCalls (closure destroyed).
Proof. vm_compute. repeat split; congruence. Qed.

End RootFramesFacts.

(** ** The camera-distance hook *)
Module CameraFacts.
Import Num Three Camera.


End CameraFacts.

(** ** [Image.setProperties]: one batch for both writes *)
Module SignalsFacts.
Import Signals.

Section Batch.
Context {Props Defaults : Type} `{EqDecision Props} `{EqDecision Defaults}.
Implicit Types rt : Runtime Props Defaults.

Lemma enqueue_NoDup queue e : NoDup queue → NoDup (enqueue queue e).
Proof.
  intros Hq. unfold enqueue. destruct (decide (e ∈ queue)); [done|].
  by constructor.
Qed.

Lemma enqueue_all_NoDup queue es : NoDup queue → NoDup (foldl enqueue queue es).
Proof.
  revert queue. induction es as [|e es IH]; intros queue Hq; simpl; [done|].
  by apply IH, enqueue_NoDup.
Qed.

Lemma elem_of_enqueue queue e x : x ∈ enqueue queue e ↔ x ∈ queue ∨ x = e.
Proof.
  unfold enqueue. destruct (decide (e ∈ queue)).
  - split; [tauto|]. intros [Hx| ->]; done.
  - rewrite elem_of_cons. tauto.
Qed.

Lemma elem_of_enqueue_all queue es x :
  x ∈ foldl enqueue queue es ↔ x ∈ queue ∨ x ∈ es.
Proof.
  revert queue. induction es as [|e es IH]; intros queue; simpl.
  - rewrite elem_of_nil. tauto.
  - rewrite IH, elem_of_enqueue, elem_of_cons. tauto.
Qed.

(** Notifying a list of targets only grows the queue. *)
Lemma notify_all rt es :
  foldl notify rt es =
    MkRuntime (propertiesSignal rt) (defaultPropertiesSignal rt)
      (propertiesTargets rt) (defaultPropertiesTargets rt)
      (batchDepth rt) (foldl enqueue (batchedEffect rt) es) (observations rt).
Proof.
  revert rt. induction es as [|e es IH]; intros rt; simpl.
  - by destruct rt.
  - by rewrite IH.
Qed.

(** Running the queue: every queued effect records the current values. *)
Lemma run_all rt es :
  foldl runEffect rt es =
    MkRuntime (propertiesSignal rt) (defaultPropertiesSignal rt)
      (propertiesTargets rt) (defaultPropertiesTargets rt)
      (batchDepth rt) (batchedEffect rt)
      (observations rt ++ (observe rt <$> es)).
Proof.
  revert rt. induction es as [|e es IH]; intros rt; simpl.
  - destruct rt; simpl. by rewrite app_nil_r.
  - rewrite IH. simpl. by rewrite <- app_assoc.
Qed.

(** A write inside a batch: the value changes, targets are queued, nothing
    runs. *)
Lemma setPropertiesSignal_in_batch value rt depth :
  batchDepth rt = S depth →
  setPropertiesSignal value rt =
    if decide (value = propertiesSignal rt) then rt
    else MkRuntime value (defaultPropertiesSignal rt)
           (propertiesTargets rt) (defaultPropertiesTargets rt)
           (S depth) (foldl enqueue (batchedEffect rt) (propertiesTargets rt))
           (observations rt).
Proof.
  intros Hdepth. unfold setPropertiesSignal.
  destruct (decide (value = propertiesSignal rt)); [done|].
  rewrite notify_all. unfold endBatch, startBatch; simpl. by rewrite Hdepth.
Qed.

Lemma setDefaultPropertiesSignal_in_batch value rt depth :
  batchDepth rt = S depth →
  setDefaultPropertiesSignal value rt =
    if decide (value = defaultPropertiesSignal rt) then rt
    else MkRuntime (propertiesSignal rt) value
           (propertiesTargets rt) (defaultPropertiesTargets rt)
           (S depth) (foldl enqueue (batchedEffect rt) (defaultPropertiesTargets rt))
           (observations rt).
Proof.
  intros Hdepth. unfold setDefaultPropertiesSignal.
  destruct (decide (value = defaultPropertiesSignal rt)); [done|].
  rewrite notify_all. unfold endBatch, startBatch; simpl. by rewrite Hdepth.
Qed.

(** Both writes inside a batch: both cells hold the new values, the targets
    of each cell that changed are queued (once), and no effect has run. *)
Lemma writes_in_batch properties defaultProperties rt depth :
  batchDepth rt = S depth →
  ∃ queue,
    setDefaultPropertiesSignal defaultProperties (setPropertiesSignal properties rt) =
      MkRuntime properties defaultProperties
        (propertiesTargets rt) (defaultPropertiesTargets rt)
        (S depth) queue (observations rt) ∧
    (NoDup (batchedEffect rt) → NoDup queue) ∧
    (∀ e, e ∈ queue ↔
          e ∈ batchedEffect rt ∨
          (properties ≠ propertiesSignal rt ∧ e ∈ propertiesTargets rt) ∨
          (defaultProperties ≠ defaultPropertiesSignal rt ∧
           e ∈ defaultPropertiesTargets rt)).
Proof.
  intros Hdepth.
  rewrite (setPropertiesSignal_in_batch _ _ depth Hdepth).
  destruct (decide (properties = propertiesSignal rt)) as [Hp|Hp].
  - rewrite (setDefaultPropertiesSignal_in_batch _ _ depth Hdepth).
    destruct (decide (defaultProperties = defaultPropertiesSignal rt)) as [Hd|Hd].
    + exists (batchedEffect rt). destruct rt; simpl in *; subst.
      split; [done|]. split; [done|]. intros e. tauto.
    + eexists. split; [by rewrite Hp|].
      split; [apply enqueue_all_NoDup|].
      intros e. rewrite elem_of_enqueue_all. tauto.
  - rewrite (setDefaultPropertiesSignal_in_batch _ _ depth) by done. simpl.
    destruct (decide (defaultProperties = defaultPropertiesSignal rt)) as [Hd|Hd].
    + eexists. split; [by rewrite Hd|].
      split; [apply enqueue_all_NoDup|].
      intros e. rewrite elem_of_enqueue_all. tauto.
    + eexists. split; [done|].
      split; [intros Hq; by apply enqueue_all_NoDup, enqueue_all_NoDup|].
      intros e. rewrite !elem_of_enqueue_all. tauto.
Qed.

(** C10: [setProperties] makes both writes inside one batch.  During the
    call every effect runs at most once, and each run sees the new
    [properties] together with the new [defaultProperties]; called outside
    any batch with nothing queued, the effects that run are the targets of
    the cells whose value changed; called inside a batch, none runs before
    that batch ends. *)
Theorem setProperties_one_batch rt (properties : Props)
    (defaultProperties : option Defaults) :
  NoDup (batchedEffect rt) →
  ∃ ran : list EffectId,
    NoDup ran ∧
    observations (setProperties properties defaultProperties rt) =
      observations rt ++ ((λ e, MkObservation e properties defaultProperties) <$> ran) ∧
    propertiesSignal (setProperties properties defaultProperties rt) = properties ∧
    defaultPropertiesSignal (setProperties properties defaultProperties rt) =
      defaultProperties ∧
    (batchDepth rt = 0 → batchedEffect rt = [] →
     ∀ e, e ∈ ran ↔
          (properties ≠ propertiesSignal rt ∧ e ∈ propertiesTargets rt) ∨
          (defaultProperties ≠ defaultPropertiesSignal rt ∧
           e ∈ defaultPropertiesTargets rt)) ∧
    (batchDepth rt ≠ 0 → ran = []).
Proof.
  intros Hq. unfold setProperties, batch.
  destruct (batchDepth rt) as [|depth] eqn:Hdepth.
  - destruct (writes_in_batch properties defaultProperties (startBatch rt) 0)
      as (queue & -> & Hnodup & Hin); [by simpl; rewrite Hdepth|].
    exists queue. unfold endBatch; simpl. rewrite run_all; simpl.
    split; [by apply Hnodup|]. split; [done|]. split; [done|]. split; [done|].
    split; [|done]. intros _ Hempty e. rewrite Hin. simpl. rewrite Hempty.
    rewrite elem_of_nil. tauto.
  - destruct (writes_in_batch properties defaultProperties rt depth Hdepth)
      as (queue & -> & _ & _).
    exists []. simpl. rewrite app_nil_r.
    split; [constructor|]. done.
Qed.

End Batch.

(** An effect that reads both cells, properties 7 over defaults 3, both
    replaced in one call: the effect runs once and sees 8 with 4. *)
Lemma setProperties_one_batch_witness :
  let rt := MkRuntime 7 (Some 3) [1] [1; 2] 0 [] [] in
  NoDup (batchedEffect rt) ∧
  ∃ ran : list EffectId,
    NoDup ran ∧
    observations (setProperties 8 (Some 4) rt) =
      observations rt ++ ((λ e, MkObservation e 8 (Some 4)) <$> ran) ∧
    propertiesSignal (setProperties 8 (Some 4) rt) = 8 ∧
    defaultPropertiesSignal (setProperties 8 (Some 4) rt) = Some 4 ∧
    (batchDepth rt = 0 → batchedEffect rt = [] →
     ∀ e, e ∈ ran ↔
          (8 ≠ propertiesSignal rt ∧ e ∈ propertiesTargets rt) ∨
          (Some 4 ≠ defaultPropertiesSignal rt ∧ e ∈ defaultPropertiesTargets rt)) ∧
    (batchDepth rt ≠ 0 → ran = []).
Proof.
  intros rt.
  assert (Hq : NoDup (batchedEffect rt)) by constructor.
  split; [exact Hq|].
  exact (setProperties_one_batch rt 8 (Some 4) Hq).
Defined.

(** Without the batch the same two writes let effect 1 run in between: it
    sees the new properties 8 with the old defaults 3, and runs twice. *)
Example unbatched_writes_are_seen_apart :
  observations (setPropertiesUnbatched 8 (Some 4)
                  (MkRuntime 7 (Some 3) [1] [1; 2] 0 [] [])) =
    [MkObservation 1 8 (Some 3); MkObservation 2 8 (Some 4); MkObservation 1 8 (Some 4)] ∧
  observations (setProperties 8 (Some 4)
                  (MkRuntime 7 (Some 3) [1] [1; 2] 0 [] [])) =
    [MkObservation 2 8 (Some 4); MkObservation 1 8 (Some 4)].
Proof. split; reflexivity. Qed.

End SignalsFacts.

(** ** More on the deferred layout closure: whole traces *)
Module DeferredTraceFacts.
Import Deferred DeferredTrace DeferredFacts.

Lemma run_snoc es e w : run (es ++ [e]) w = step (run es w) e.
Proof. by rewrite run_app. Qed.

Lemma frames_snoc es e :
  frames (es ++ [e]) = frames es + (if decide (e = Frame) then 1 else 0).
Proof.
  unfold frames. rewrite filter_app, length_app, filter_cons, filter_nil.
  by destruct (decide (e = Frame)).
Qed.

Lemma requests_snoc es e :
  requests (es ++ [e]) = requests es + (if isRequest e then 1 else 0).
Proof.
  unfold requests. rewrite filter_app, length_app, filter_cons, filter_nil.
  by destruct e.
Qed.

(** One step: the log grows by at most one call, and only at a tick that
    takes the pending node; a node becomes pending only at a request. *)
Lemma step_counts w e :
  length (layoutCalls (step w e)) + pendingCount (step w e) =
    length (layoutCalls w) + pendingCount w +
    (if isRequest e then pendingCount (step w e) - pendingCount w else 0) ∧
  length (layoutCalls w) ≤ length (layoutCalls (step w e)) ∧
  length (layoutCalls (step w e)) ≤
    length (layoutCalls w) + (if decide (e = Frame) then 1 else 0).
Proof.
  destruct w as [yoga pending calls].
  destruct e as [node|node| |node handle]; simpl;
    unfold requestCalculateLayout, onFrame, destroy, attach, pendingCount; simpl.
  - destruct pending, (yoga !! node); simpl; lia.
  - destruct pending; simpl; lia.
  - destruct pending; simpl; rewrite ?length_app; simpl; lia.
  - destruct pending; simpl; lia.
Qed.

(** X1: over any trace, from any state, the closure makes at most one
    [calculateLayout] call per frame tick, and no more calls than there were
    requests (plus one for a node that was pending at the start). *)
Theorem layout_calls_bounded (w : World) (es : list Event) :
  length (layoutCalls w) ≤ length (layoutCalls (run es w)) ∧
  length (layoutCalls (run es w)) ≤ length (layoutCalls w) + frames es ∧
  length (layoutCalls (run es w)) + pendingCount (run es w) ≤
    length (layoutCalls w) + pendingCount w + requests es.
Proof.
  induction es as [|e es IH] using rev_ind.
  - unfold frames, requests. simpl. lia.
  - rewrite run_snoc, frames_snoc, requests_snoc.
    destruct (step_counts (run es w) e) as (Hsum & Hmono & Hframe).
    destruct IH as (IH1 & IH2 & IH3).
    split; [lia|]. split; [lia|].
    destruct (isRequest e); [|lia].
    assert (pendingCount (step (run es w) e) ≤ 1)
      by (unfold pendingCount; destruct (requestedNode _); lia).
    lia.
Qed.

(** A tick with nothing pending changes nothing. *)
Lemma frames_when_idle n w :
  requestedNode w = None → run (replicate n Frame) w = w.
Proof.
  intros Hidle. induction n as [|n IH]; [done|].
  rewrite replicate_S, run_cons. cbn [step]. unfold onFrame. by rewrite Hidle.
Qed.

Lemma onFrame_clears w : requestedNode (onFrame w) = None.
Proof. unfold onFrame. by destruct (requestedNode w) eqn:E. Qed.


(** One round from an empty slot. *)
Lemma round_from_idle w r :
  requestedNode w = None →
  is_Some (yogaNode w !! r.1) →
  run (round r) w =
    MkWorld (yogaNode w) None
      (layoutCalls w ++ [MkLayoutCall r.1 (yogaNode w !! r.1)]).
Proof.
  intros Hidle Hlive. unfold round.
  rewrite run_app, fmap_cons, (run_cons (Request r.1)). cbn [step].
  rewrite requests_when_pending by (rewrite request_records by done; by eexists).
  change (run [Frame] ?x) with (onFrame x). unfold onFrame.
  rewrite request_records, request_keeps_yoga, request_keeps_calls by done.
  done.
Qed.

(** X3: the slot is free again after every tick.  Over any number of frame
    intervals, each starting with a request for a live node, every interval
    ends in exactly one call, on the node requested first in that interval;
    all other requests of the interval are dropped. *)
Theorem one_call_per_round (w : World) (rounds : list (NodeRef * list NodeRef)) :
  requestedNode w = None →
  Forall (λ r, is_Some (yogaNode w !! r.1)) rounds →
  run (concat (round <$> rounds)) w =
    MkWorld (yogaNode w) None
      (layoutCalls w ++ ((λ r, MkLayoutCall r.1 (yogaNode w !! r.1)) <$> rounds)).
Proof.
  intros Hidle Hlive. revert w Hidle Hlive.
  induction rounds as [|r rounds IH]; intros w Hidle Hlive.
  - simpl. unfold run; simpl. rewrite app_nil_r. by destruct w; simpl in *; subst.
  - apply Forall_cons in Hlive as [Hr Hlive].
    rewrite fmap_cons, concat_cons, run_app, round_from_idle by done.
    rewrite IH by done. simpl. by rewrite <- app_assoc.
Qed.

Lemma one_call_per_round_witness :
  let w := created {[ 1 := 10; 2 := 20 ]} in
  run (concat (round <$> [(2, [1; 7]); (1, []); (1, [2])])) w =
    MkWorld (yogaNode w) None
      [MkLayoutCall 2 (Some 20); MkLayoutCall 1 (Some 10); MkLayoutCall 1 (Some 10)].
Proof.
  intros w.
  apply (one_call_per_round w [(2, [1; 7]); (1, []); (1, [2])]).
  - reflexivity.
  - repeat constructor; vm_compute; eauto.
Defined.

Section Provenance.

(** What holds of the closure after the trace [es], started right after
    creation, when no node has an engine handle yet. *)
Let good_call (es : list Event) (c : LayoutCall) : Prop :=
  Request (receiver c) ∈ es ∧
  (∃ h, Attach (receiver c) h ∈ es) ∧
  (handleAtCall c = None → Destroy (receiver c) ∈ es) ∧
  (∀ h, handleAtCall c = Some h → Attach (receiver c) h ∈ es).

Let invariant (es : list Event) (w : World) : Prop :=
  (∀ n h, yogaNode w !! n = Some h → Attach n h ∈ es) ∧
  (∀ n h, Attach n h ∈ es → yogaNode w !! n = None → Destroy n ∈ es) ∧
  (∀ n, requestedNode w = Some n → Request n ∈ es ∧ ∃ h, Attach n h ∈ es) ∧
  (∀ c, c ∈ layoutCalls w → good_call es c).

Lemma good_call_snoc es e c : good_call es c → good_call (es ++ [e]) c.
Proof.
  intros (Hreq & (h & Hatt) & Hnull & Hsome). unfold good_call.
  split; [apply elem_of_app; auto|].
  split; [exists h; apply elem_of_app; auto|].
  split; [intros Hc; apply elem_of_app; auto|].
  intros h' Hc. apply elem_of_app; auto.
Qed.

Lemma elem_of_snoc_l (es : list Event) e x : x ∈ es → x ∈ es ++ [e].
Proof. intros Hx. apply elem_of_app. by left. Qed.

Lemma elem_of_snoc_r (es : list Event) e : e ∈ es ++ [e].
Proof. apply elem_of_app. right. by apply list_elem_of_singleton. Qed.

Lemma invariant_run es : invariant es (run es (created ∅)).
Proof.
  induction es as [|e es IH] using rev_ind.
  - split; [intros n h Hn; simpl in Hn; by rewrite lookup_empty in Hn|].
    split; [intros n h Hn; by apply elem_of_nil in Hn|].
    split; [done|]. intros c Hc. by apply elem_of_nil in Hc.
  - rewrite run_snoc. destruct IH as (Hsub & Hgone & Hpending & Hcalls).
    set (w := run es (created ∅)) in *.
    assert (Hgone' : ∀ n h, Attach n h ∈ es ++ [e] → e ≠ Attach n h →
                            yogaNode w !! n = None → Destroy n ∈ es ++ [e]).
    { intros n h Hatt Hne Hnone. apply elem_of_app in Hatt as [Hatt|Hatt].
      - apply elem_of_snoc_l. eauto.
      - apply list_elem_of_singleton in Hatt. congruence. }
    assert (Hpending' : ∀ n, requestedNode w = Some n →
                             Request n ∈ es ++ [e] ∧ ∃ h, Attach n h ∈ es ++ [e]).
    { intros n Hn. destruct (Hpending n Hn) as [Hreq [h Hatt]].
      split; [by apply elem_of_snoc_l|]. exists h. by apply elem_of_snoc_l. }
    assert (Hcalls' : ∀ c, c ∈ layoutCalls w → good_call (es ++ [e]) c)
      by (intros c Hc; by apply good_call_snoc, Hcalls).
    assert (Hsub' : ∀ n h, yogaNode w !! n = Some h → Attach n h ∈ es ++ [e])
      by (intros n h Hn; apply elem_of_snoc_l; eauto).
    assert (Hsame : (∀ n h, e ≠ Attach n h) → invariant (es ++ [e]) w).
    { intros Hne. split; [exact Hsub'|].
      split; [intros n h Hatt Hnone; by apply (Hgone' n h)|].
      split; [exact Hpending'|exact Hcalls']. }
    destruct e as [node|node| |node handle]; cbn [step].
    + (* a request *)
      unfold requestCalculateLayout.
      destruct (requestedNode w) as [p|] eqn:Hp;
        [by apply Hsame|destruct (yogaNode w !! node) as [h|] eqn:Hnode];
        [|by apply Hsame].
      destruct Hsame as (_ & Hgone'' & _ & _); [done|].
      split; [exact Hsub'|]. split; [exact Hgone''|]. split; [|exact Hcalls'].
      cbn [requestedNode]. intros n [= <-].
      split; [apply elem_of_snoc_r|]. exists h. by apply Hsub'.
    + (* a node is destroyed *)
      unfold destroy. split; cbn [yogaNode requestedNode layoutCalls].
      { intros n h Hn. apply lookup_delete_Some in Hn as [_ Hn]. by apply Hsub'. }
      split; [|split; [exact Hpending'|exact Hcalls']].
      intros n h Hatt Hn. destruct (decide (node = n)) as [->|Hne].
      * apply elem_of_snoc_r.
      * rewrite lookup_delete_ne in Hn by done. by apply (Hgone' n h).
    + (* a tick *)
      unfold onFrame. destruct (requestedNode w) as [p|] eqn:Hp;
        [|by apply Hsame].
      destruct Hsame as (_ & Hgone'' & _ & _); [done|].
      split; [exact Hsub'|]. split; [exact Hgone''|].
      split; [done|]. cbn [layoutCalls].
      intros c Hc. apply elem_of_app in Hc as [Hc|Hc]; [by apply Hcalls'|].
      apply list_elem_of_singleton in Hc as ->.
      destruct (Hpending' p eq_refl) as [Hreq [h Hatt]].
      unfold good_call; cbn [receiver handleAtCall].
      split; [done|]. split; [by exists h|].
      split; [intros Hnone; by apply (Hgone'' p h)|].
      intros h' Hh'. by apply Hsub'.
    + (* a node gets its handle *)
      unfold attach. split; cbn [yogaNode requestedNode layoutCalls].
      { intros n h Hn. destruct (decide (node = n)) as [->|Hne].
        - rewrite lookup_insert_eq in Hn. injection Hn as ->. apply elem_of_snoc_r.
        - rewrite lookup_insert_ne in Hn by done. by apply Hsub'. }
      split; [|split; [exact Hpending'|exact Hcalls']].
      intros n h Hatt Hn. destruct (decide (node = n)) as [->|Hne].
      * by rewrite lookup_insert_eq in Hn.
      * rewrite lookup_insert_ne in Hn by done.
        apply (Hgone' n h); [done| |done]. congruence.
Qed.

(** X4: right after creation no node holds an engine handle.  Whatever
    handles are attached, and whatever the requests, destructions and ticks
    from then on, a node that [calculateLayout] is called on was requested
    earlier and had a handle attached earlier; when it holds none at the
    call, it was destroyed in between; a handle it holds at the call is one
    that was attached to it. *)
Theorem layout_calls_were_requested (es : list Event) (c : LayoutCall) :
  c ∈ layoutCalls (run es (created ∅)) →
  Request (receiver c) ∈ es ∧
  (∃ h, Attach (receiver c) h ∈ es) ∧
  (handleAtCall c = None → Destroy (receiver c) ∈ es) ∧
  (∀ h, handleAtCall c = Some h → Attach (receiver c) h ∈ es).
Proof.
  intros Hc. destruct (invariant_run es) as (_ & _ & _ & Hcalls).
  exact (Hcalls c Hc).
Qed.

End Provenance.

Lemma layout_calls_were_requested_witness :
  let es := [Attach 1 10; Attach 2 20; Request 1; Destroy 1; Frame; Request 2; Frame] in
  let c := MkLayoutCall 1 None in
  c ∈ layoutCalls (run es (created ∅)) ∧
  Request (receiver c) ∈ es ∧
  (∃ h, Attach (receiver c) h ∈ es) ∧
  (handleAtCall c = None → Destroy (receiver c) ∈ es) ∧
  (∀ h, handleAtCall c = Some h → Attach (receiver c) h ∈ es).
Proof.
  intros es c.
  assert (Hc : c ∈ layoutCalls (run es (created ∅))) by (vm_compute; apply list_elem_of_here).
  split; [exact Hc|].
  exact (layout_calls_were_requested es c Hc).
Defined.

End DeferredTraceFacts.

(** ** More on size translation: the closure's map, live signals, and a
       pixel size of zero *)
Module SizeMapFacts.
Import Js Size JsFacts SizeFacts.

Lemma mapGet_app_miss map value k entry :
  mapGet map value = None → sameKey k value = true →
  mapGet (map ++ [(k, entry)]) value = Some entry.
Proof.
  intros Hmiss Hk. induction map as [|[k' e'] map IH]; simpl in *.
  - by rewrite Hk.
  - destruct (sameKey k' value); [done|]. by apply IH.
Qed.

(** X5: the transformer goes through the closure's [Map].  When the map
    holds an entry for the value (keys compare as [Map] keys do, NaN
    included), that entry is what is written, whatever it is, and the map
    stays as it is; when it holds none, the signal computed for the value is
    stored under the value, after the entries that were there, and written.
    Either way the map then answers for the value with what was written, so
    a second call with the same value writes the same entry again and leaves
    the map as the first call left it. *)
Theorem size_transformer_memoizes {T} `{PropertyTarget T} (p : float)
    (to to' : string) (map : SizeMap) (value : Reactive) (target target' : T) :
  ∃ entry,
    let first := sizeTransformer p to map value target in
    first.2 = target_add to (Derived entry) target ∧
    (∀ held, mapGet map value = Some held → entry = held ∧ first.1 = map) ∧
    (mapGet map value = None →
     entry = sizeComputed p value ∧ first.1 = map ++ [(value, entry)]) ∧
    mapGet first.1 value = Some entry ∧
    sizeTransformer p to' first.1 value target' =
      (first.1, target_add to' (Derived entry) target').
Proof.
  destruct (mapGet map value) as [held|] eqn:Hget.
  - exists held. intros first.
    assert (Hfirst : first = (map, target_add to (Derived held) target))
      by (unfold first, sizeTransformer; by rewrite Hget).
    rewrite Hfirst. cbn [fst snd].
    split; [done|]. split; [by intros ? [= <-]|].
    split; [done|]. split; [done|].
    unfold sizeTransformer. by rewrite Hget.
  - exists (sizeComputed p value). intros first.
    assert (Hfirst : first = (map ++ [(value, sizeComputed p value)],
                              target_add to (Derived (sizeComputed p value)) target))
      by (unfold first, sizeTransformer; by rewrite Hget).
    rewrite Hfirst. cbn [fst snd].
    split; [done|]. split; [done|]. split; [done|].
    assert (Hfound : mapGet (map ++ [(value, sizeComputed p value)]) value =
                       Some (sizeComputed p value))
      by (apply mapGet_app_miss; [done|apply sameKey_refl]).
    split; [done|]. unfold sizeTransformer. by rewrite Hfound.
Qed.

(** The map holds a signal of its own under the cell 7: for the cell 7 that
    signal is written, not one computed from the cell. *)
Lemma held_entry_is_written :
  let held : SignalStore → JsValue := λ _, JsNumber 1 in
  let map : SizeMap := [(Cell 7, held)] in
  sizeTransformer 0.002 "width" map (Cell 7) ([] : Recorder) =
    (map, [("width", Derived held)]) ∧
  sizeTransformer 0.002 "width" map (Cell 8) ([] : Recorder) =
    (map ++ [(Cell 8, sizeComputed 0.002 (Cell 8))],
     [("width", Derived (sizeComputed 0.002 (Cell 8)))]).
Proof. split; reflexivity. Qed.

(** X6: the signal written for a size is live.  One and the same written
    signal gives, in every state of the store, the size's current number
    divided by [pixelSize], and [undefined] while the size is [null] or
    [undefined]: a size held in a cell is followed, not copied. *)
Theorem size_signal_is_live {T} `{PropertyTarget T} (p : float) (to : string)
    (map : SizeMap) (value : Reactive) (target : T) :
  mapOk p map →
  ∃ entry,
    (sizeTransformer p to map value target).2 = target_add to (Derived entry) target ∧
    ∀ σ : SignalStore,
      match readReactive σ value with
      | JsNumber s =>
          ∃ w, entry σ = JsNumber w ∧ sameValueZero w (s / p) = true ∧
               (isZero s = false → w = (s / p)%float)
      | JsNull | JsUndefined => entry σ = JsUndefined
      end.
Proof.
  intros Hok. unfold sizeTransformer.
  destruct (mapGet map value) as [entry|] eqn:Hget; simpl.
  - destruct (mapGet_Some _ _ _ _ Hok Hget) as (k & Hk & ->).
    eexists. split; [done|]. intros σ. by apply sizeComputed_sameKey.
  - eexists. split; [done|]. intros σ. apply sizeComputed_sameKey, sameKey_refl.
Qed.

(** The size is the cell 5; the signal written while the cell holds 100
    reads 50000 then, and 100000 once the cell holds 200. *)
Lemma size_signal_is_live_witness :
  mapOk 0.002 [] ∧
  ∃ entry,
    (sizeTransformer 0.002 "width" [] (Cell 5) ([] : Recorder)).2 =
      target_add "width" (Derived entry) [] ∧
    entry {[ 5 := JsNumber 100 ]} = JsNumber 50000 ∧
    entry {[ 5 := JsNumber 200 ]} = JsNumber 100000 ∧
    entry ∅ = JsUndefined.
Proof.
  assert (Hok : mapOk 0.002 []) by constructor.
  split; [exact Hok|].
  destruct (size_signal_is_live 0.002 "width" [] (Cell 5) ([] : Recorder) Hok)
    as (entry & Hw & Hlive).
  exists entry. split; [exact Hw|].
  pose proof (Hlive {[ 5 := JsNumber 100 ]}) as (w1 & H1 & _ & E1).
  pose proof (Hlive {[ 5 := JsNumber 200 ]}) as (w2 & H2 & _ & E2).
  pose proof (Hlive ∅) as H3.
  split; [rewrite H1, (E1 eq_refl); reflexivity|].
  split; [rewrite H2, (E2 eq_refl); reflexivity|exact H3].
Defined.

Lemma Prim2SF_zero : Prim2SF 0 = S754_zero false.
Proof. reflexivity. Qed.

(** X7: [??] keeps an explicit [pixelSize] of 0, and nothing guards the
    division: with a pixel size of 0 every finite nonzero size is written as
    an infinity (of the size's sign), and a zero size as NaN. *)
Theorem zero_pixel_size_is_kept (s : float) (σ : SignalStore) :
  rootPixelSize (Some 0%float) = 0%float ∧
  (∀ sign m e, Prim2SF s = S754_finite sign m e →
     sizeComputed (rootPixelSize (Some 0%float)) (Plain (JsNumber s)) σ =
       JsNumber (if sign then neg_infinity else infinity)) ∧
  (∀ sign, Prim2SF s = S754_zero sign →
     sizeComputed (rootPixelSize (Some 0%float)) (Plain (JsNumber s)) σ = JsNumber nan).
Proof.
  split; [reflexivity|]. unfold sizeComputed, rootPixelSize; simpl. split.
  - intros sign m e Hs. f_equal. apply Prim2SF_inj.
    rewrite FloatAxioms.div_spec, Hs, Prim2SF_zero. by destruct sign.
  - intros sign Hs. f_equal. apply Prim2SF_inj.
    rewrite FloatAxioms.div_spec, Hs, Prim2SF_zero. done.
Qed.

(** A size of 100, and a size of [-0], over a pixel size of 0. *)
Lemma zero_pixel_size_is_kept_witness :
  sizeComputed (rootPixelSize (Some 0%float)) (Plain (JsNumber 100)) ∅ =
    JsNumber infinity ∧
  sizeComputed (rootPixelSize (Some 0%float)) (Plain (JsNumber (-0))) ∅ = JsNumber nan.
Proof.
  split.
  - exact (proj1 (proj2 (zero_pixel_size_is_kept 100 ∅)) false _ _ eq_refl).
  - exact (proj2 (proj2 (zero_pixel_size_is_kept (-0) ∅)) true eq_refl).
Defined.

End SizeMapFacts.

(** ** More on [Image.setProperties] *)
Module SetPropertiesFacts.
Import Signals SignalsFacts.

Section SetProperties.
Context {Props Defaults : Type} `{EqDecision Props} `{EqDecision Defaults}.
Implicit Types rt : Runtime Props Defaults.

(** X9: setting the very values the two cells hold is a no-op: no effect
    runs, nothing is queued, the state is as before (at batch depth 0 the
    queue is empty, as it is whenever no batch is open). *)
Theorem setProperties_same_values_noop rt :
  (batchDepth rt = 0 → batchedEffect rt = []) →
  setProperties (propertiesSignal rt) (defaultPropertiesSignal rt) rt = rt.
Proof.
  intros Hquiet. unfold setProperties, batch.
  destruct rt as [p d tp td depth queue obs]; simpl in *.
  destruct depth as [|depth].
  - rewrite (Hquiet eq_refl).
    unfold setPropertiesSignal, startBatch; simpl.
    destruct (decide (p = p)) as [_|?]; [|done].
    unfold setDefaultPropertiesSignal; simpl.
    destruct (decide (d = d)) as [_|?]; [|done]. reflexivity.
  - unfold setPropertiesSignal; simpl.
    destruct (decide (p = p)) as [_|?]; [|done].
    unfold setDefaultPropertiesSignal; simpl.
    destruct (decide (d = d)) as [_|?]; [|done]. reflexivity.
Qed.

(** X10: [setProperties] closes the batch it opens and touches no
    subscription: the batch depth and both target lists are as before, and
    called outside a batch it leaves no effect queued. *)
Theorem setProperties_is_balanced rt (properties : Props)
    (defaultProperties : option Defaults) :
  batchDepth (setProperties properties defaultProperties rt) = batchDepth rt ∧
  propertiesTargets (setProperties properties defaultProperties rt) =
    propertiesTargets rt ∧
  defaultPropertiesTargets (setProperties properties defaultProperties rt) =
    defaultPropertiesTargets rt ∧
  (batchDepth rt = 0 →
   batchedEffect (setProperties properties defaultProperties rt) = []).
Proof.
  unfold setProperties, batch.
  destruct (batchDepth rt) as [|depth] eqn:Hdepth.
  - destruct (writes_in_batch properties defaultProperties (startBatch rt) 0)
      as (queue & -> & _ & _); [by simpl; rewrite Hdepth|].
    unfold endBatch; simpl. rewrite run_all; simpl. done.
  - destruct (writes_in_batch properties defaultProperties rt depth Hdepth)
      as (queue & -> & _ & _).
    simpl. repeat split. intros Hzero. discriminate.
Qed.

(** X11: two [setProperties] calls inside one enclosing [batch]: no effect
    runs between them, and when the enclosing batch ends every effect runs at
    most once and sees the values of the second call only. *)
Theorem setProperties_twice_in_one_batch rt (p1 p2 : Props)
    (d1 d2 : option Defaults) :
  batchDepth rt = 0 →
  NoDup (batchedEffect rt) →
  ∃ ran : list EffectId,
    NoDup ran ∧
    observations (batch (λ rt, setProperties p2 d2 (setProperties p1 d1 rt)) rt) =
      observations rt ++ ((λ e, MkObservation e p2 d2) <$> ran) ∧
    propertiesSignal (batch (λ rt, setProperties p2 d2 (setProperties p1 d1 rt)) rt) = p2 ∧
    defaultPropertiesSignal
      (batch (λ rt, setProperties p2 d2 (setProperties p1 d1 rt)) rt) = d2.
Proof.
  intros Hdepth Hq.
  assert (Hone : ∀ rt' p d depth, batchDepth rt' = S depth →
            setProperties p d rt' =
            setDefaultPropertiesSignal d (setPropertiesSignal p rt')).
  { intros rt' p d depth Hd. unfold setProperties, batch. by rewrite Hd. }
  assert (Hres : ∃ queue, NoDup queue ∧
            batch (λ rt, setProperties p2 d2 (setProperties p1 d1 rt)) rt =
              MkRuntime p2 d2 (propertiesTargets rt) (defaultPropertiesTargets rt)
                0 [] (observations rt ++ ((λ e, MkObservation e p2 d2) <$> queue))).
  { unfold batch at 1. rewrite Hdepth.
    rewrite (Hone (startBatch rt) p1 d1 0) by (by simpl; rewrite Hdepth).
    destruct (writes_in_batch p1 d1 (startBatch rt) 0)
      as (queue1 & -> & Hnodup1 & _); [by simpl; rewrite Hdepth|].
    rewrite (Hone _ p2 d2 0) by done.
    match goal with
    | |- context [setDefaultPropertiesSignal d2 (setPropertiesSignal p2 ?x)] =>
        destruct (writes_in_batch p2 d2 x 0) as (queue2 & -> & Hnodup2 & _); [done|]
    end.
    exists queue2. split; [by apply Hnodup2, Hnodup1|].
    unfold endBatch; simpl. by rewrite run_all. }
  destruct Hres as (queue & Hnodup & ->). by exists queue.
Qed.

End SetProperties.

Lemma setProperties_same_values_noop_witness :
  let rt := MkRuntime 7 (Some 3) [1] [1; 2] 0 [] [] in
  setProperties 7 (Some 3) rt = rt.
Proof.
  intros rt. apply (setProperties_same_values_noop rt). reflexivity.
Defined.

(** Effect 1 reads both cells; 8 over 4 is set, then 9 over 5. *)
Lemma setProperties_twice_in_one_batch_witness :
  let rt := MkRuntime 7 (Some 3) [1] [1; 2] 0 [] [] in
  ∃ ran : list EffectId,
    NoDup ran ∧
    observations (batch (λ rt, setProperties 9 (Some 5) (setProperties 8 (Some 4) rt)) rt) =
      observations rt ++ ((λ e, MkObservation e 9 (Some 5)) <$> ran) ∧
    propertiesSignal (batch (λ rt, setProperties 9 (Some 5) (setProperties 8 (Some 4) rt)) rt) = 9 ∧
    defaultPropertiesSignal
      (batch (λ rt, setProperties 9 (Some 5) (setProperties 8 (Some 4) rt)) rt) = Some 5.
Proof.
  intros rt.
  apply (setProperties_twice_in_one_batch rt 8 9 (Some 4) (Some 5)).
  - reflexivity.
  - constructor.
Defined.

End SetPropertiesFacts.

(** ** The [Image] wrapper: construction and destruction *)
Module ImageWrapperFacts.
Import ImageWrapper.

(** Lookups after inserts and deletes at known keys. *)
Ltac lookups :=
  repeat first [ rewrite lookup_insert_eq
               | rewrite lookup_insert_ne by done
               | rewrite lookup_delete_eq
               | rewrite lookup_delete_ne by done ];
  try done.

Lemma removeFirst_snoc_fresh x (l : list Obj) :
  x ∉ l → removeFirst x (l ++ [x]) = l.
Proof.
  induction l as [|y l IH]; intros Hx; simpl.
  - by rewrite decide_True.
  - apply not_elem_of_cons in Hx as [Hne Hx].
    rewrite decide_False by done. by rewrite IH.
Qed.

Lemma remove_present this object s :
  object ∈ children s this →
  remove this object s =
    MkScene (delete object (parentOf s))
            (<[this := removeFirst object (children s this)]> (childrenOf s))
            (manualMatrix s) (destroyImageCalls s).
Proof. intros Hin. unfold remove. by rewrite decide_True. Qed.

Lemma remove_absent this object s :
  object ∉ children s this → remove this object s = s.
Proof. intros Hout. unfold remove. by rewrite decide_False. Qed.

(** An object that occurs nowhere in the tables is new. *)
Lemma fresh_by_lookup s o :
  parentOf s !! o = None → childrenOf s !! o = None →
  map_Forall (λ _ l, o ∉ l) (childrenOf s) → fresh s o.
Proof.
  intros Hp Hc Hall. repeat split; [done|done|].
  intros p. unfold children. destruct (childrenOf s !! p) as [l|] eqn:Hl; simpl.
  - exact (Hall p l Hl).
  - apply not_elem_of_nil.
Qed.

(** Adding an object that has no parent yet. *)
Lemma add_orphan this object s :
  object ≠ this → parentOf s !! object = None →
  add this object s =
    MkScene (<[object := this]> (parentOf s))
            (<[this := children s this ++ [object]]> (childrenOf s))
            (manualMatrix s) (destroyImageCalls s).
Proof.
  intros Hne Horphan. unfold add, removeFromParent.
  rewrite decide_False by done. by rewrite Horphan.
Qed.

Section Construct.
Variable s : Scene.
Variable parent : Obj.
Variable img : Image.
Hypothesis fresh_self : fresh s (self img).
Hypothesis fresh_container : fresh s (container img).
Hypothesis fresh_mesh : fresh s (mesh img).
Hypothesis distinct : NoDup [parent; self img; container img; mesh img].

(** The scene after the constructor, written out. *)
Lemma construct_written_out :
  construct parent img s =
    MkScene
      (<[mesh img := container img]>
         (<[container img := parent]>
            (<[self img := container img]> (parentOf s))))
      (<[container img := [self img; mesh img]]>
         (<[parent := children s parent ++ [container img]]>
            (<[container img := [self img]]> (childrenOf s))))
      ({[self img]} ∪ ({[container img]} ∪ manualMatrix s))
      (destroyImageCalls s).
Proof.
  destruct fresh_self as (Hps & Hcs & _).
  destruct fresh_container as (Hpc & Hcc & _).
  destruct fresh_mesh as (Hpm & Hcm & _).
  apply NoDup_cons in distinct as [Hparent Hrest].
  apply NoDup_cons in Hrest as [Hself Hrest].
  apply NoDup_cons in Hrest as [Hcont _].
  repeat match goal with
         | Hnot : _ ∉ _ :: _ |- _ => apply not_elem_of_cons in Hnot as [? Hnot]
         end.
  unfold construct.
  rewrite (add_orphan (container img) (self img)) by done.
  unfold setManualMatrix at 1 2; simpl.
  rewrite (add_orphan parent (container img))
    by first [done | simpl; by rewrite lookup_insert_ne].
  simpl.
  rewrite (add_orphan (container img) (mesh img))
    by first [done | simpl; by rewrite !lookup_insert_ne].
  unfold children; simpl. rewrite Hcc. simpl.
  rewrite (lookup_insert_ne _ (container img) parent) by done.
  rewrite (lookup_insert_ne _ parent (container img)) by done.
  by rewrite lookup_insert_eq.
Qed.

(** X12: after the constructor the image sits in its own container under
    the parent: the container is the parent's last child, the image and then
    the mesh are the container's children, image and container have
    [matrixAutoUpdate] off, and no other object's parent or children
    changed. *)
Theorem image_is_mounted :
  let s' := construct parent img s in
  parentOf s' !! container img = Some parent ∧
  parentOf s' !! self img = Some (container img) ∧
  parentOf s' !! mesh img = Some (container img) ∧
  children s' (container img) = [self img; mesh img] ∧
  children s' parent = children s parent ++ [container img] ∧
  self img ∈ manualMatrix s' ∧
  container img ∈ manualMatrix s' ∧
  (∀ o, o ∉ [self img; container img; mesh img] → parentOf s' !! o = parentOf s !! o) ∧
  (∀ o, o ∉ [parent; container img] → children s' o = children s o).
Proof.
  intros s'. unfold s'. rewrite construct_written_out.
  pose proof distinct as Hdistinct.
  apply NoDup_cons in Hdistinct as [Hparent Hrest].
  apply NoDup_cons in Hrest as [Hself Hrest].
  apply NoDup_cons in Hrest as [Hcont _].
  repeat match goal with
         | Hnot : _ ∉ _ :: _ |- _ => apply not_elem_of_cons in Hnot as [? Hnot]
         end.
  unfold children; simpl.
  split; [lookups|]. split; [lookups|]. split; [lookups|].
  split; [lookups|]. split; [lookups|].
  split; [set_solver|]. split; [set_solver|]. split.
  - intros o Ho.
    repeat match goal with
           | Hnot : _ ∉ _ :: _ |- _ => apply not_elem_of_cons in Hnot as [? Hnot]
           end.
    lookups.
  - intros o Ho.
    repeat match goal with
           | Hnot : _ ∉ _ :: _ |- _ => apply not_elem_of_cons in Hnot as [? Hnot]
           end.
    lookups.
Qed.

(** X13: constructing an image and destroying it gives the parent its
    children back: the container is detached and has no parent, every object
    that existed before has the children it had, and only the three new
    objects got a parent entry.  The image and the mesh stay in the detached
    container, and [destroyImage] has run once. *)
Theorem image_mount_then_destroy :
  let s'' := destroy img (construct parent img s) in
  children s'' parent = children s parent ∧
  parentOf s'' !! container img = None ∧
  children s'' (container img) = [self img; mesh img] ∧
  (∀ o, o ≠ container img → children s'' o = children s o) ∧
  (∀ o, o ∉ [self img; mesh img] → parentOf s'' !! o = parentOf s !! o) ∧
  destroyImageCalls s'' = S (destroyImageCalls s).
Proof.
  intros s''. unfold s''. rewrite construct_written_out.
  destruct fresh_container as (Hpc & Hcc & Hnobody).
  pose proof distinct as Hdistinct.
  apply NoDup_cons in Hdistinct as [Hparent Hrest].
  apply NoDup_cons in Hrest as [Hself Hrest].
  apply NoDup_cons in Hrest as [Hcont _].
  repeat match goal with
         | Hnot : _ ∉ _ :: _ |- _ => apply not_elem_of_cons in Hnot as [? Hnot]
         end.
  unfold destroy; simpl. lookups.
  unfold remove, children; simpl. lookups.
  rewrite decide_True by (apply elem_of_app; right; by apply list_elem_of_singleton).
  simpl. rewrite removeFirst_snoc_fresh by apply Hnobody.
  split; [lookups|]. split; [lookups|]. split; [lookups|].
  split.
  - intros o Ho. destruct (decide (o = parent)) as [->|Hop]; lookups.
  - split; [|done]. intros o Ho.
    repeat match goal with
           | Hnot : _ ∉ _ :: _ |- _ => apply not_elem_of_cons in Hnot as [? Hnot]
           end.
    destruct (decide (o = container img)) as [->|Hoc]; lookups.
Qed.

End Construct.

(** X14: [destroy] has no guard of its own: a second call finds the
    container without a parent and leaves the scene graph alone, but calls
    [destroyImage] again. *)
Theorem image_destroy_twice (img : Image) (s : Scene) :
  parentOf (destroy img (destroy img s)) = parentOf (destroy img s) ∧
  childrenOf (destroy img (destroy img s)) = childrenOf (destroy img s) ∧
  destroyImageCalls (destroy img (destroy img s)) = S (S (destroyImageCalls s)).
Proof.
  destruct s as [P C M n]. unfold destroy; simpl.
  destruct (P !! container img) as [p|] eqn:Hp; simpl; [|by rewrite Hp].
  destruct (decide (container img ∈ children (MkScene P C M n) p)) as [Hin|Hout].
  - rewrite (remove_present _ _ _ Hin). simpl. by rewrite lookup_delete_eq.
  - rewrite (remove_absent _ _ _ Hout). simpl. rewrite Hp.
    by rewrite remove_absent.
Qed.

(** Parent 0 has the children 5 and 6; the new objects are 1, 2 and 3. *)
Lemma image_is_mounted_witness :
  let s := MkScene ∅ {[ 0 := [5; 6] ]} ∅ 0 in
  let img := MkImage 1 2 3 in
  let s' := construct 0 img s in
  parentOf s' !! 2 = Some 0 ∧ parentOf s' !! 1 = Some 2 ∧ parentOf s' !! 3 = Some 2 ∧
  children s' 2 = [1; 3] ∧ children s' 0 = [5; 6; 2].
Proof.
  intros s img s'.
  assert (Hfresh : ∀ o, bool_decide (o ∉ [5; 6]) = true → o ≠ 0 → fresh s o).
  { intros o Ho Hne. apply fresh_by_lookup.
    - apply lookup_empty.
    - apply lookup_singleton_ne. congruence.
    - apply map_Forall_singleton. by apply bool_decide_eq_true in Ho. }
  assert (Hdistinct : NoDup [0; 1; 2; 3]) by exact (NoDup_seq 0 4).
  destruct (image_is_mounted s 0 img
              (Hfresh 1 eq_refl ltac:(discriminate))
              (Hfresh 2 eq_refl ltac:(discriminate))
              (Hfresh 3 eq_refl ltac:(discriminate)) Hdistinct)
    as (H1 & H2 & H3 & H4 & H5 & _).
  repeat split; assumption.
Defined.

Lemma image_mount_then_destroy_witness :
  let s := MkScene ∅ {[ 0 := [5; 6] ]} ∅ 0 in
  let img := MkImage 1 2 3 in
  let s'' := destroy img (construct 0 img s) in
  children s'' 0 = [5; 6] ∧ parentOf s'' !! 2 = None ∧ children s'' 2 = [1; 3].
Proof.
  intros s img s''.
  assert (Hfresh : ∀ o, bool_decide (o ∉ [5; 6]) = true → o ≠ 0 → fresh s o).
  { intros o Ho Hne. apply fresh_by_lookup.
    - apply lookup_empty.
    - apply lookup_singleton_ne. congruence.
    - apply map_Forall_singleton. by apply bool_decide_eq_true in Ho. }
  assert (Hdistinct : NoDup [0; 1; 2; 3]) by exact (NoDup_seq 0 4).
  destruct (image_mount_then_destroy s 0 img
              (Hfresh 1 eq_refl ltac:(discriminate))
              (Hfresh 2 eq_refl ltac:(discriminate))
              (Hfresh 3 eq_refl ltac:(discriminate)) Hdistinct)
    as (H1 & H2 & H3 & _).
  repeat split; assumption.
Defined.

End ImageWrapperFacts.

(** ** The script that writes [convert.ts]: file names *)
Module CodegenFacts.
Import Codegen.

Lemma stripExtension_without_dot (s : JsString) :
  dot ∉ s → stripExtension s = s.
Proof.
  induction s as [|u s IH]; intros Hdot; simpl; [done|].
  apply not_elem_of_cons in Hdot as [Hu Hs].
  rewrite (bool_decide_eq_false_2 (u = dot)) by done. simpl. by rewrite IH.
Qed.

Lemma stripExtension_of_extension (stem ext : JsString) :
  ext ≠ [] → dot ∉ ext → stripExtension (stem ++ dot :: ext) = stem.
Proof.
  intros Hext Hdot. induction stem as [|u stem IH]; simpl.
  - rewrite !bool_decide_eq_true_2 by done. done.
  - rewrite (bool_decide_eq_false_2 (dot ∉ stem ++ dot :: ext)).
    + rewrite !andb_false_r. by rewrite IH.
    + intros Hnot. apply Hnot, elem_of_app. right. apply list_elem_of_here.
Qed.

Lemma stripExtension_trailing_dot (s : JsString) :
  stripExtension (s ++ [dot]) = s ++ [dot].
Proof.
  induction s as [|u s IH]; simpl.
  - reflexivity.
  - rewrite (bool_decide_eq_false_2 (dot ∉ s ++ [dot])).
    + rewrite !andb_false_r. by rewrite IH.
    + intros Hnot. apply Hnot, elem_of_app. right. apply list_elem_of_here.
Qed.

(** X15: the extension is what follows the last dot: a name [stem.ext]
    with a non-empty, dot-free [ext] is cut to [stem] (whatever dots [stem]
    holds); a name with no dot, or ending in a dot, is left as it is. *)
Theorem extension_is_stripped (stem ext : JsString) :
  ext ≠ [] → dot ∉ ext →
  stripExtension (stem ++ dot :: ext) = stem ∧
  stripExtension ext = ext ∧
  stripExtension (stem ++ [dot]) = stem ++ [dot].
Proof.
  intros Hext Hdot. split; [by apply stripExtension_of_extension|].
  split; [by apply stripExtension_without_dot|apply stripExtension_trailing_dot].
Qed.

Lemma extension_is_stripped_witness :
  stripExtension (units "toggle.group" ++ dot :: units "tsx") = units "toggle.group" ∧
  stripExtension (units "tsx") = units "tsx" ∧
  stripExtension (units "toggle.group" ++ [dot]) = units "toggle.group" ++ [dot].
Proof.
  apply (extension_is_stripped (units "toggle.group") (units "tsx")).
  - discriminate.
  - apply (bool_decide_eq_true_1 (dot ∉ units "tsx")). reflexivity.
Defined.

Section Script.
Variable toUpperCase : CodeUnit → JsString.

Lemma stripExtension_nil_iff (fileName : JsString) :
  stripExtension fileName = [] ↔ stemless fileName.
Proof.
  unfold stemless. destruct fileName as [|u rest]; simpl.
  - split; [by left|done].
  - destruct (bool_decide (u = dot)) eqn:Hu; simpl;
      [destruct (bool_decide (rest ≠ [])) eqn:Hrest; simpl;
       [destruct (bool_decide (dot ∉ rest)) eqn:Hdot; simpl|]|].
    + apply bool_decide_eq_true in Hu as ->.
      apply bool_decide_eq_true in Hrest. apply bool_decide_eq_true in Hdot.
      split; [|done]. intros _. right. by exists rest.
    + apply bool_decide_eq_false in Hdot.
      split; [done|]. intros [?|(ext & [= _ <-] & _ & Hext)]; done.
    + apply bool_decide_eq_false in Hrest.
      split; [done|]. intros [?|(ext & [= _ <-] & Hext & _)]; done.
    + apply bool_decide_eq_false in Hu.
      split; [done|]. intros [?|(ext & [= -> _] & _)]; done.
Qed.

Lemma toComponentName_None_iff (fileName : JsString) :
  toComponentName toUpperCase fileName = None ↔ stemless fileName.
Proof.
  rewrite <- stripExtension_nil_iff. unfold toComponentName.
  destruct (stripExtension fileName); split; done.
Qed.

Lemma componentNames_None_iff (fileNames : list JsString) :
  componentNames toUpperCase fileNames = None ↔ Exists stemless fileNames.
Proof.
  unfold componentNames. induction fileNames as [|f fs IH]; simpl.
  - split; [done|]. intros Hex. by apply Exists_nil in Hex.
  - rewrite Exists_cons, <- IH, <- toComponentName_None_iff.
    destruct (toComponentName toUpperCase f); simpl;
      destruct (mapM (toComponentName toUpperCase) fs); simpl;
      unfold mret, option_ret; intuition congruence.
Qed.

Lemma loop_no_TypeError names components imports map :
  loop toUpperCase names components imports map ≠ ThrewTypeError.
Proof.
  revert imports map. induction components as [|c components IH]; intros imports map; simpl.
  - done.
  - destruct (skipped toUpperCase c); [apply IH|].
    destruct (findComponentName names c); [apply IH|done].
Qed.

(** X16: the script dies of a TypeError exactly when the directory holds a
    file name without a stem, such as a dot file ([.gitignore]): its name is
    cut to the empty string, whose first code unit is [undefined]. *)
Theorem dot_file_stops_the_script (fileNames components : list JsString) :
  script toUpperCase fileNames components = ThrewTypeError ↔
  Exists stemless fileNames.
Proof.
  rewrite <- componentNames_None_iff. unfold script.
  destruct (componentNames toUpperCase fileNames) as [names|].
  - split; [intros Hloop; by apply loop_no_TypeError in Hloop|done].
  - done.
Qed.

(** A stretch without hyphen is copied. *)
Lemma camelCase_word (w suffix : JsString) :
  hyphen ∉ w → camelCase toUpperCase (w ++ suffix) = w ++ camelCase toUpperCase suffix.
Proof.
  induction w as [|u w IH]; intros Hw; [done|].
  apply not_elem_of_cons in Hw as [Hu Hw].
  change ((u :: w) ++ suffix) with (u :: (w ++ suffix)).
  rewrite <- (app_comm_cons w), <- IH by done.
  destruct (w ++ suffix) as [|v rest] eqn:Hrest; simpl; [done|].
  rewrite (bool_decide_eq_false_2 (u = hyphen)) by done. done.
Qed.

Lemma camelCase_hyphen (v : CodeUnit) (rest : JsString) :
  isLineTerminator v = false →
  camelCase toUpperCase (hyphen :: v :: rest) =
    toUpperCase v ++ camelCase toUpperCase rest.
Proof. intros Hv. simpl. by rewrite Hv. Qed.

(** A word as the script expects it after a hyphen. *)
Let word (w : JsString) : Prop :=
  (hyphen ∉ w) ∧ ∃ u rest, w = u :: rest ∧ isLineTerminator u = false.

Lemma camelCase_words (ws : list JsString) :
  Forall word ws →
  camelCase toUpperCase (concat ((λ w, hyphen :: w) <$> ws)) =
    concat (capitalize toUpperCase <$> ws).
Proof.
  induction 1 as [|w ws (Hw & u & rest & -> & Hu) _ IH]; [done|].
  rewrite !fmap_cons, !concat_cons.
  apply not_elem_of_cons in Hw as [_ Hrest].
  change ((hyphen :: u :: rest) ++ ?t) with (hyphen :: u :: (rest ++ t)).
  rewrite camelCase_hyphen, camelCase_word, IH by done.
  simpl. by rewrite <- app_assoc.
Qed.

(** X17: a kebab-case file name becomes the Pascal-case component name:
    for words without hyphen, none empty and none starting with a line
    terminator, [w1-w2-...-wn.ext] gives the words joined, each with its
    first code unit in upper case. *)
Theorem kebab_file_gives_pascal_name (w : JsString) (ws : list JsString)
    (ext : JsString) :
  Forall (λ w, (hyphen ∉ w) ∧ ∃ u rest, w = u :: rest ∧ isLineTerminator u = false)
         (w :: ws) →
  ext ≠ [] → dot ∉ ext →
  toComponentName toUpperCase (joinHyphen (w :: ws) ++ dot :: ext) =
    Some (concat (capitalize toUpperCase <$> (w :: ws))).
Proof.
  intros Hwords Hext Hdot. apply Forall_cons in Hwords as [Hw Hws].
  unfold toComponentName. rewrite stripExtension_of_extension by done.
  destruct Hw as (Hw & u & rest & -> & _).
  apply not_elem_of_cons in Hw as [_ Hrest].
  simpl. f_equal. rewrite camelCase_word by done.
  rewrite (camelCase_words ws Hws). by rewrite <- app_assoc.
Qed.

End Script.

Lemma kebab_file_gives_pascal_name_witness :
  toComponentName asciiUpper (units "toggle-group-item.tsx") =
    Some (units "ToggleGroupItem").
Proof.
  assert (Hword : ∀ w : JsString,
            bool_decide (hyphen ∉ w) = true →
            (∃ u rest, w = u :: rest ∧ isLineTerminator u = false) →
            (hyphen ∉ w) ∧ ∃ u rest, w = u :: rest ∧ isLineTerminator u = false).
  { intros w Hw Hhead. split; [by apply bool_decide_eq_true in Hw|done]. }
  refine (kebab_file_gives_pascal_name asciiUpper (units "toggle")
            [units "group"; units "item"] (units "tsx") _ _ _).
  - repeat constructor; apply Hword; try reflexivity; by eexists _, _.
  - discriminate.
  - apply (bool_decide_eq_true_1 (dot ∉ units "tsx")). reflexivity.
Defined.

End CodegenFacts.
(** ** The script that writes [convert.ts]: the loop over the exports *)
Module CodegenLoopFacts.
Import Codegen.

Lemma startsWith_spec (s prefix : JsString) :
  startsWith s prefix = true ↔ ∃ post, s = prefix ++ post.
Proof.
  revert s. induction prefix as [|p prefix IH]; intros s; simpl.
  - split; [intros _; by exists s|]. intros _. by destruct s.
  - destruct s as [|u s]; simpl.
    + split; [done|]. intros (post & Hpost). discriminate.
    + rewrite andb_true_iff, bool_decide_eq_true, IH. split.
      * intros (-> & post & ->). by exists post.
      * intros (post & [= -> ->]). split; [done|by exists post].
Qed.

(** [includes] is the substring test. *)
Lemma includes_spec (s part : JsString) :
  includes s part = true ↔ ∃ pre post, s = pre ++ part ++ post.
Proof.
  induction s as [|u s IH]; cbn [includes].
  - rewrite orb_false_r, startsWith_spec. split.
    + intros (post & Hpost). by exists [], post.
    + intros (pre & post & Hs). symmetry in Hs.
      apply app_eq_nil in Hs as [-> Hs]. apply app_eq_nil in Hs as [-> ->].
      by exists [].
  - rewrite orb_true_iff, startsWith_spec, IH. split.
    + intros [(post & Hpost)|(pre & post & ->)].
      * by exists [], post.
      * by exists (u :: pre), post.
    + intros (pre & post & Hs). destruct pre as [|v pre]; simpl in Hs.
      * left. by exists post.
      * right. injection Hs as [= -> ->]. by exists pre, post.
Qed.

Lemma find_first {A} (f : A → bool) (l : list A) (x : A) :
  List.find f l = Some x ↔
  ∃ before after, l = before ++ x :: after ∧ f x = true ∧
                  Forall (λ y, f y = false) before.
Proof.
  induction l as [|y l IH]; simpl.
  - split; [done|]. intros (before & after & Hl & _). by destruct before.
  - destruct (f y) eqn:Hy.
    + split.
      * intros [= ->]. by exists [], l.
      * intros (before & after & Hl & Hx & Hbefore).
        destruct before as [|z before]; simpl in Hl.
        -- by injection Hl as [= -> _].
        -- injection Hl as [= -> _]. apply Forall_cons in Hbefore as [Hz _]. congruence.
    + rewrite IH. split.
      * intros (before & after & -> & Hx & Hbefore).
        exists (y :: before), after. repeat split; [done|by constructor].
      * intros (before & after & Hl & Hx & Hbefore).
        destruct before as [|z before]; simpl in Hl.
        -- injection Hl as [= -> _]. congruence.
        -- injection Hl as [= -> ->]. apply Forall_cons in Hbefore as [_ Hbefore].
           by exists before, after.
Qed.

(** X18: the name a component is filed under occurs in the component, and
    is the first name of the directory listing that does: an earlier name
    that is a part of the component shadows all later ones. *)
Theorem component_name_is_first_substring (names : list JsString)
    (component name : JsString) :
  findComponentName names component = Some name ↔
  ∃ before after,
    names = before ++ name :: after ∧
    (∃ pre post, component = pre ++ name ++ post) ∧
    Forall (λ n, ¬ ∃ pre post, component = pre ++ n ++ post) before.
Proof.
  unfold findComponentName. rewrite find_first. split.
  - intros (before & after & -> & Hname & Hbefore). exists before, after.
    split; [done|]. split; [by apply includes_spec|].
    eapply Forall_impl; [exact Hbefore|]. intros n Hn Hin.
    apply includes_spec in Hin. congruence.
  - intros (before & after & -> & Hname & Hbefore). exists before, after.
    split; [done|]. split; [by apply includes_spec|].
    eapply Forall_impl; [exact Hbefore|]. intros n Hn.
    destruct (includes component n) eqn:Hin; [|done].
    by apply includes_spec in Hin.
Qed.

Section Loop.
Variable toUpperCase : CodeUnit → JsString.
Variable names : list JsString.

Lemma entriesOf_pushTo (name entry : JsString) (map : ConversionMap) (k : JsString) :
  entriesOf (pushTo name entry map) k =
    if decide (k = name) then entriesOf map name ++ [entry] else entriesOf map k.
Proof.
  induction map as [|[k0 entries] map IH]; simpl.
  - destruct (decide (name = k)) as [->|Hne].
    + by rewrite decide_True.
    + by rewrite decide_False by congruence.
  - destruct (decide (k0 = name)) as [->|Hk0]; simpl.
    + destruct (decide (name = k)) as [->|Hne].
      * by rewrite decide_True.
      * by rewrite decide_False by congruence.
    + destruct (decide (k0 = k)) as [->|Hk].
      * by rewrite decide_False.
      * apply IH.
Qed.

Lemma keys_pushTo (name entry : JsString) (map : ConversionMap) :
  NoDup map.*1 → NoDup (pushTo name entry map).*1.
Proof.
  assert (Hkeys : ∀ k, k ∈ (pushTo name entry map).*1 → k = name ∨ k ∈ map.*1).
  { induction map as [|[k0 entries] map IH]; intros k; simpl.
    - intros Hk. apply list_elem_of_singleton in Hk. by left.
    - destruct (decide (k0 = name)) as [->|Hk0]; simpl.
      + intros Hk. by right.
      + intros Hk. apply elem_of_cons in Hk as [->|Hk].
        * right. apply list_elem_of_here.
        * destruct (IH k Hk) as [->|Hin]; [by left|right]. by apply list_elem_of_further. }
  clear Hkeys. induction map as [|[k0 entries] map IH]; simpl; intros Hnodup.
  - apply NoDup_singleton.
  - apply NoDup_cons in Hnodup as [Hk0 Hnodup].
    destruct (decide (k0 = name)) as [->|Hne]; simpl.
    + by constructor.
    + constructor; [|by apply IH].
      intros Hin. apply Hk0. clear IH Hnodup Hk0.
      induction map as [|[k1 entries1] map IH]; simpl in *.
      * apply list_elem_of_singleton in Hin. congruence.
      * destruct (decide (k1 = name)) as [->|Hk1]; simpl in *; [done|].
        apply elem_of_cons in Hin as [->|Hin]; [apply list_elem_of_here|].
        apply list_elem_of_further. by apply IH.
Qed.

(** The loop, when it gets through. *)
Lemma loop_Wrote components imports map imports' map' :
  loop toUpperCase names components imports map = Wrote imports' map' →
  imports' = imports ++ processed toUpperCase components ∧
  (NoDup map.*1 → NoDup map'.*1) ∧
  ∀ k, entriesOf map' k =
         entriesOf map k ++
         filter (λ c, findComponentName names c = Some k) (processed toUpperCase components).
Proof.
  revert imports map. induction components as [|c components IH]; intros imports map; simpl.
  - intros [= <- <-]. unfold processed. rewrite filter_nil, app_nil_r.
    split; [done|]. split; [done|]. intros k. by rewrite app_nil_r.
  - unfold processed. rewrite filter_cons. fold (processed toUpperCase components).
    destruct (skipped toUpperCase c) eqn:Hskip.
    + rewrite decide_False by done. apply IH.
    + rewrite decide_True by done.
      destruct (findComponentName names c) as [name|] eqn:Hfind; [|done].
      intros Hloop. destruct (IH _ _ Hloop) as (-> & Hnodup & Hentries).
      split; [by rewrite <- app_assoc|].
      split; [intros Hmap; by apply Hnodup, keys_pushTo|].
      intros k. rewrite Hentries, entriesOf_pushTo, filter_cons.
      destruct (decide (k = name)) as [->|Hne].
      * rewrite decide_True by done. by rewrite <- app_assoc.
      * rewrite decide_False by congruence. done.
Qed.

(** The loop, when it throws. *)
Lemma loop_Threw components imports map c :
  loop toUpperCase names components imports map = ThrewNoComponentName c ↔
  ∃ before after,
    processed toUpperCase components = before ++ c :: after ∧
    Forall (λ b, is_Some (findComponentName names b)) before ∧
    findComponentName names c = None.
Proof.
  revert imports map. induction components as [|d components IH]; intros imports map; simpl.
  - split; [done|]. intros (before & after & Hp & _). by destruct before.
  - unfold processed. rewrite filter_cons. fold (processed toUpperCase components).
    destruct (skipped toUpperCase d) eqn:Hskip.
    + rewrite decide_False by done. apply IH.
    + rewrite decide_True by done.
      destruct (findComponentName names d) as [name|] eqn:Hfind.
      * rewrite IH. split.
        -- intros (before & after & -> & Hbefore & Hc).
           exists (d :: before), after. split; [done|]. split; [|done].
           constructor; [by eexists|done].
        -- intros (before & after & Hp & Hbefore & Hc).
           destruct before as [|b before]; simpl in Hp.
           ++ injection Hp as [= -> _]. congruence.
           ++ injection Hp as [= -> ->]. apply Forall_cons in Hbefore as [_ Hbefore].
              by exists before, after.
      * split.
        -- intros [= ->]. exists [], (processed toUpperCase components).
           split; [done|]. split; [constructor|done].
        -- intros (before & after & Hp & Hbefore & Hc).
           destruct before as [|b before]; simpl in Hp.
           ++ by injection Hp as [= -> _].
           ++ injection Hp as [= -> _]. apply Forall_cons in Hbefore as [[n Hn] _].
              congruence.
Qed.

Lemma Defaults_is_skipped : skipped toUpperCase (units "Defaults") = true.
Proof. unfold skipped. by rewrite bool_decide_eq_true_2. Qed.

End Loop.

(** X19: when the script writes the file, the imports are the exports it
    does not skip, in their order, [Defaults] never among them; the map has
    every name once, and under a name exactly the processed exports that
    [find] files there, in their order. *)
Theorem script_writes_grouped_exports (toUpperCase : CodeUnit → JsString)
    (fileNames components imports : list JsString) (map : ConversionMap) :
  script toUpperCase fileNames components = Wrote imports map →
  ∃ names,
    componentNames toUpperCase fileNames = Some names ∧
    imports = processed toUpperCase components ∧
    (units "Defaults" ∉ imports) ∧
    NoDup map.*1 ∧
    ∀ name, entriesOf map name =
              filter (λ c, findComponentName names c = Some name) imports.
Proof.
  unfold script.
  destruct (componentNames toUpperCase fileNames) as [names|]; [|done].
  intros Hloop. exists names.
  destruct (loop_Wrote toUpperCase names _ _ _ _ _ Hloop) as (Himports & Hnodup & Hentries).
  simpl in Himports. subst imports.
  split; [done|]. split; [done|]. split.
  - unfold processed. intros Hin. apply list_elem_of_filter in Hin as [Hskip _].
    by rewrite Defaults_is_skipped in Hskip.
  - split; [apply Hnodup; constructor|]. intros name. by rewrite Hentries.
Qed.

(** X20: the script throws [no corresponding component name found] for a
    component exactly when that component is the first export, among those
    not skipped, in which no component name occurs; nothing is written
    then. *)
Theorem script_throws_at_first_unmatched (toUpperCase : CodeUnit → JsString)
    (fileNames components : list JsString) (c : JsString) :
  script toUpperCase fileNames components = ThrewNoComponentName c ↔
  ∃ names before after,
    componentNames toUpperCase fileNames = Some names ∧
    processed toUpperCase components = before ++ c :: after ∧
    Forall (λ b, is_Some (findComponentName names b)) before ∧
    findComponentName names c = None.
Proof.
  unfold script.
  destruct (componentNames toUpperCase fileNames) as [names|].
  - rewrite loop_Threw. split.
    + intros (before & after & ?). by exists names, before, after.
    + intros (names' & before & after & [= <-] & ?). by exists before, after.
  - split; [done|]. intros (names' & before & after & ? & _). done.
Qed.

(** The directory holds [container.tsx] and [toggle-group.tsx]; the exports
    are [Defaults], [ToggleGroupItem], [useThing] and [Container]. *)
Lemma script_writes_grouped_exports_witness :
  ∃ names,
    componentNames asciiUpper [units "container.tsx"; units "toggle-group.tsx"] = Some names ∧
    [units "ToggleGroupItem"; units "Container"] =
      processed asciiUpper
        [units "Defaults"; units "ToggleGroupItem"; units "useThing"; units "Container"] ∧
    (units "Defaults" ∉ [units "ToggleGroupItem"; units "Container"]) ∧
    NoDup [(units "ToggleGroup", [units "ToggleGroupItem"]);
           (units "Container", [units "Container"])].*1 ∧
    ∀ name,
      entriesOf [(units "ToggleGroup", [units "ToggleGroupItem"]);
                 (units "Container", [units "Container"])] name =
        filter (λ c, findComponentName names c = Some name)
               [units "ToggleGroupItem"; units "Container"].
Proof.
  apply (script_writes_grouped_exports asciiUpper
           [units "container.tsx"; units "toggle-group.tsx"]
           [units "Defaults"; units "ToggleGroupItem"; units "useThing"; units "Container"]).
  vm_compute. reflexivity.
Defined.

End CodegenLoopFacts.
